(** * romm-gog-custodian: the import pipeline and the remote scan session

    A shallow embedding of the torrent-to-library import pipeline
    ([src/modules/torrents.py]), of the remote scan handshake
    ([src/modules/api/romm.py]) and of the size-based maintenance sweeps
    ([src/modules/romm_library_cleanup.py]), with the properties the
    specification states about them.

    Conventions.
    - A Python [str] is a list of Unicode code points ([list N]), so that
      [len], [in], [split], [replace] and [strip] count and compare code
      points as Python does.
    - Calls that leave the process (filesystem, qBittorrent, websocket) are
      answered by an explicit environment; every call that can change the
      outside world is appended to a log.
    - A Python exception is a value of [exn]; [except C] clauses are
      membership tests of the class [C], tried in source order. *)

From Stdlib Require Import ZArith NArith QArith List String Ascii Bool Lia.
From stdpp Require Import gmap list.
Import ListNotations.

#[local] Open Scope list_scope.
#[local] Open Scope nat_scope.

(** ** Python strings *)

Module PyStr.

Abbreviation str := (list N).

(** An ASCII literal of the source, as code points. *)
Definition lit (s : string) : str :=
  List.map N_of_ascii (list_ascii_of_string s).

(** [not s] on a string: true exactly for the empty string. *)
Definition is_empty (s : str) : bool :=
  match s with [] => true | _ :: _ => false end.

(** [a == b] on strings. *)
Fixpoint eqb (a b : str) : bool :=
  match a, b with
  | [], [] => true
  | x :: a', y :: b' => N.eqb x y && eqb a' b'
  | _, _ => false
  end.

(** [s.startswith(p)]. *)
Fixpoint startswith (s p : str) : bool :=
  match p, s with
  | [], _ => true
  | _ :: _, [] => false
  | x :: p', y :: s' => N.eqb x y && startswith s' p'
  end.

(** [needle in hay]: some position of [hay] starts with [needle]. *)
Fixpoint contains (hay needle : str) : bool :=
  startswith hay needle ||
  match hay with
  | [] => false
  | _ :: hay' => contains hay' needle
  end.

(** [s.split(sep)[0]] for a non-empty [sep]: the text before the leftmost
    occurrence of [sep], the whole of [s] when there is none. *)
Fixpoint split_head (s sep : str) : str :=
  if startswith s sep then []
  else match s with
       | [] => []
       | c :: s' => c :: split_head s' sep
       end.

(** [s.replace(c, '')] for a one-character [c]. *)
Fixpoint remove_char (c : N) (s : str) : str :=
  match s with
  | [] => []
  | x :: s' => if N.eqb x c then remove_char c s' else x :: remove_char c s'
  end.

(** [str.isspace] on one code point: the characters [str.strip()] removes. *)
Definition isspace (c : N) : bool :=
  ((9 <=? c) && (c <=? 13) || (28 <=? c) && (c <=? 32) ||
   (c =? 133) || (c =? 160) || (c =? 5760) ||
   (8192 <=? c) && (c <=? 8202) || (c =? 8232) || (c =? 8233) ||
   (c =? 8239) || (c =? 8287) || (c =? 12288))%N.

Fixpoint lstrip (s : str) : str :=
  match s with
  | [] => []
  | c :: s' => if isspace c then lstrip s' else s
  end.

Definition rstrip (s : str) : str := rev (lstrip (rev s)).

(** [s.strip()]. *)
Definition strip (s : str) : str := rstrip (lstrip s).

(** [s.endswith(p)]. *)
Definition endswith (s p : str) : bool := startswith (rev s) (rev p).

(** [os.path.join(a, b)] of [posixpath]. *)
Definition os_path_join (a b : str) : str :=
  if startswith b (lit "/") then b
  else if is_empty a || endswith a (lit "/") then a ++ b
  else a ++ lit "/" ++ b.

End PyStr.
Import PyStr.

(** ** Exceptions *)

(** The exception classes the modelled code raises or catches.  The class
    tests follow the libraries' hierarchies: [qbittorrentapi.LoginFailed]
    derives from [qbittorrentapi.APIConnectionError], [shutil.Error] from
    [OSError], and every class here from [Exception]. *)
Inductive exn : Type :=
  | LoginFailed
  | APIConnectionError
  | OSError
  | ShutilError
  | WebSocketTimeoutException
  | AttributeError
  | OtherException.

Definition is_LoginFailed (e : exn) : bool :=
  match e with LoginFailed => true | _ => false end.

Definition is_APIConnectionError (e : exn) : bool :=
  match e with LoginFailed | APIConnectionError => true | _ => false end.

Definition is_OSError (e : exn) : bool :=
  match e with OSError | ShutilError => true | _ => false end.

Definition is_ShutilError (e : exn) : bool :=
  match e with ShutilError => true | _ => false end.

Definition is_WebSocketTimeoutException (e : exn) : bool :=
  match e with WebSocketTimeoutException => true | _ => false end.

(** The result of a call that either returns or raises. *)
Inductive outcome (A : Type) : Type :=
  | Return (a : A)
  | Raise (e : exn).
Arguments Return {A} a.
Arguments Raise {A} e.

(** ** Catalog matcher: [new_folder] *)

Module Matcher.

(** One object of the GOG catalog document; both fields are strings. *)
Record CatalogEntry : Type := { slug : str; title : str }.

(** What reading [GOG_ALL_GAMES_FILE] gives: the parsed list, or one of
    the failures the [try] block of [new_folder] turns into [None]. *)
Inductive load_result : Type :=
  | Loaded (data : list CatalogEntry)
  | LoadFailed.

Definition marker : str := lit "_windows_gog_".

(** The working name: the torrent name cut at the marker. *)
Definition working_name (torrent_name : str) : str :=
  if contains torrent_name marker then split_head torrent_name marker
  else torrent_name.

(** The first loop: the title of the first item whose slug equals the
    working name. *)
Fixpoint exact_pass (new_name : str) (data : list CatalogEntry) : option str :=
  match data with
  | [] => None
  | item :: rest =>
      if eqb new_name (slug item) then Some (title item)
      else exact_pass new_name rest
  end.

(** [sorted(data, key=lambda x: len(x.get('slug', '')))]: Python's sort is
    stable, and so is this insertion sort (an item goes before the first
    item of the sorted rest whose key is not smaller). *)
Fixpoint insert_by_len (x : CatalogEntry) (l : list CatalogEntry)
  : list CatalogEntry :=
  match l with
  | [] => [x]
  | y :: l' =>
      if length (slug x) <=? length (slug y) then x :: y :: l'
      else y :: insert_by_len x l'
  end.

Fixpoint sorted_by_len (data : list CatalogEntry) : list CatalogEntry :=
  match data with
  | [] => []
  | x :: rest => insert_by_len x (sorted_by_len rest)
  end.

(** The two nested tests of the second loop. *)
Definition partial_ok (new_name : str) (item : CatalogEntry) : bool :=
  negb (is_empty (slug item)) && contains (slug item) new_name &&
  (length (slug item) <=? length new_name + 10).

(** The second loop, over the sorted items. *)
Fixpoint partial_scan (new_name : str) (sorted_items : list CatalogEntry)
  : option str :=
  match sorted_items with
  | [] => None
  | item :: rest =>
      if partial_ok new_name item then Some (title item)
      else partial_scan new_name rest
  end.

(** The name after the [try] block. *)
Definition lookup_name (new_name : str) (data : list CatalogEntry) : str :=
  match exact_pass new_name data with
  | Some t => t
  | None =>
      match partial_scan new_name (sorted_by_len data) with
      | Some t => t
      | None => new_name
      end
  end.

(** The characters removed from the title: the copyright, registered and
    trademark signs. *)
Definition glyphs : list N := [169; 174; 8482]%N.

Definition remove_glyphs (s : str) : str :=
  fold_left (fun acc c => remove_char c acc) glyphs s.

(** The tail of [new_folder]: glyphs removed, whitespace trimmed, and the
    original torrent name when nothing is left. *)
Definition finish (torrent_name new_name : str) : str :=
  let cleaned := strip (remove_glyphs new_name) in
  if is_empty cleaned then torrent_name else cleaned.

(** [new_folder(torrent_name)]; [None] is Python's [None]. *)
Definition new_folder (file : load_result) (torrent_name : str)
  : option str :=
  if is_empty torrent_name then None
  else
    match file with
    | LoadFailed => None
    | Loaded data =>
        Some (finish torrent_name (lookup_name (working_name torrent_name) data))
    end.

End Matcher.

(** ** Library relocator: [move_torrent_folder] *)

Module Relocator.

Inductive kind : Type := File | Dir.

(** The calls of [move_torrent_folder] that change the filesystem. *)
Inductive fs_call : Type :=
  | Rmtree (path : str)
  | Rename (src dst : str)
  | ShutilMove (src dst : str).

(** The filesystem as the relocator sees it: which paths exist and of
    which kind, the failures the operating system injects into each
    mutating call (permissions, cross-device renames, ...), and the log
    of the mutating calls made so far. *)
Record FS : Type := {
  nodes : gmap (list N) kind;
  rmtree_fault : str -> option exn;
  rename_fault : str -> str -> option exn;
  move_fault : str -> str -> option exn;
  calls : list fs_call
}.

Definition with_nodes (w : FS) (m : gmap (list N) kind) : FS :=
  {| nodes := m; rmtree_fault := rmtree_fault w;
     rename_fault := rename_fault w; move_fault := move_fault w;
     calls := calls w |}.

Definition logged (w : FS) (c : fs_call) : FS :=
  {| nodes := nodes w; rmtree_fault := rmtree_fault w;
     rename_fault := rename_fault w; move_fault := move_fault w;
     calls := calls w ++ [c] |}.

Definition os_path_exists (w : FS) (p : str) : bool :=
  match nodes w !! p with Some _ => true | None => false end.

Definition os_path_isdir (w : FS) (p : str) : bool :=
  match nodes w !! p with Some Dir => true | _ => false end.

(** [shutil.rmtree(p)]: raises what the system injects, [OSError] when
    [p] is not a directory, and removes the tree otherwise. *)
Definition shutil_rmtree (w : FS) (p : str) : FS * option exn :=
  let w1 := logged w (Rmtree p) in
  match rmtree_fault w p with
  | Some e => (w1, Some e)
  | None =>
      match nodes w !! p with
      | Some Dir => (with_nodes w1 (delete p (nodes w)), None)
      | _ => (w1, Some OSError)
      end
  end.

(** The effect of a successful move of [src] to [dst]. *)
Definition moved (w : FS) (src dst : str) (k : kind) : FS :=
  with_nodes w (<[dst := k]> (delete src (nodes w))).

(** [os.rename(src, dst)]. *)
Definition os_rename (w : FS) (src dst : str) : FS * option exn :=
  let w1 := logged w (Rename src dst) in
  match rename_fault w src dst with
  | Some e => (w1, Some e)
  | None =>
      match nodes w !! src with
      | Some k => (moved w1 src dst k, None)
      | None => (w1, Some OSError)
      end
  end.

(** [shutil.move(src, dst)] onto a destination that does not exist. *)
Definition shutil_move (w : FS) (src dst : str) : FS * option exn :=
  let w1 := logged w (ShutilMove src dst) in
  match move_fault w src dst with
  | Some e => (w1, Some e)
  | None =>
      match nodes w !! src with
      | Some k => (moved w1 src dst k, None)
      | None => (w1, Some OSError)
      end
  end.

(** The [try: os.rename ... except OSError: (try: shutil.move ...) except
    Exception: ...] statement, with [replaced] as it stands on entry.  An
    exception raised by [shutil.move] inside the [except OSError] handler
    is not seen by the sibling [except Exception] clause. *)
Definition rename_or_move (w : FS) (source destination : str)
    (replaced : bool) : FS * outcome (bool * bool * bool) :=
  match os_rename w source destination with
  | (w1, None) => (w1, Return (true, replaced, true))
  | (w1, Some e) =>
      if is_OSError e then
        match shutil_move w1 source destination with
        | (w2, None) => (w2, Return (true, replaced, true))
        | (w2, Some e') =>
            if is_OSError e' || is_ShutilError e'
            then (w2, Return (false, replaced, false))
            else (w2, Raise e')
        end
      else (w1, Return (false, replaced, false))
  end.

(** [move_torrent_folder(source, destination)], returning
    [(success, replaced, new)]. *)
Definition move_torrent_folder (w : FS) (source destination : str)
  : FS * outcome (bool * bool * bool) :=
  if negb (os_path_exists w source) then (w, Return (false, false, false))
  else if negb (os_path_isdir w source) then (w, Return (false, false, false))
  else if os_path_exists w destination then
    match shutil_rmtree w destination with
    | (w1, None) => rename_or_move w1 source destination true
    | (w1, Some e) =>
        if is_OSError e then (w1, Return (false, false, false))
        else (w1, Raise e)
    end
  else rename_or_move w source destination false.

End Relocator.

(** ** Torrent client: [get_qbittorrent_client] and [delete_torrent] *)

Module Qbit.

(** A torrent as [torrents_info] lists it. *)
Record Torrent : Type := {
  name : str;
  hash : str;
  content_path : str;
  state : str
}.

Inductive qb_call : Type :=
  | Connect
  | TorrentsInfo
  | TorrentsDelete (torrent_hashes : str) (delete_files : bool)
  | Sleep (seconds : Z).

(** The torrent client: what the n-th log-in and the n-th delete request
    answer ([None]: no exception), the list [torrents_info] gives, how
    many of each were made, and the log of calls. *)
Record QB : Type := {
  login_answer : nat -> option exn;
  delete_answer : nat -> option exn;
  info_answer : outcome (list Torrent);
  n_login : nat;
  n_delete : nat;
  qb_calls : list qb_call
}.

Definition qb_logged (q : QB) (c : qb_call) : QB :=
  {| login_answer := login_answer q; delete_answer := delete_answer q;
     info_answer := info_answer q; n_login := n_login q;
     n_delete := n_delete q; qb_calls := qb_calls q ++ [c] |}.

Definition next_login (q : QB) : QB :=
  {| login_answer := login_answer q; delete_answer := delete_answer q;
     info_answer := info_answer q; n_login := S (n_login q);
     n_delete := n_delete q; qb_calls := qb_calls q |}.

Definition next_delete (q : QB) : QB :=
  {| login_answer := login_answer q; delete_answer := delete_answer q;
     info_answer := info_answer q; n_login := n_login q;
     n_delete := S (n_delete q); qb_calls := qb_calls q |}.

Definition MAX_RETRIES : nat := 3.
Definition RETRY_DELAY : Z := 5.

(** What [get_qbittorrent_client] returns: a client, or [False]. *)
Inductive client_or_false : Type := ClientObj | PyFalse.

(** [get_qbittorrent_client()]: the [Client] constructor and [auth_log_in()]
    under [except APIConnectionError: return False]. *)
Definition get_qbittorrent_client (q : QB) : QB * outcome client_or_false :=
  let q1 := next_login (qb_logged q Connect) in
  match login_answer q (n_login q) with
  | None => (q1, Return ClientObj)
  | Some e =>
      if is_APIConnectionError e then (q1, Return PyFalse)
      else (q1, Raise e)
  end.

(** [client.torrents_delete(torrent_hashes=h, delete_files=False)]; on
    [False] the attribute lookup raises before any request is made. *)
Definition torrents_delete (q : QB) (client : client_or_false) (h : str)
  : QB * outcome unit :=
  match client with
  | PyFalse => (q, Raise AttributeError)
  | ClientObj =>
      let q1 := next_delete (qb_logged q (TorrentsDelete h false)) in
      match delete_answer q (n_delete q) with
      | None => (q1, Return tt)
      | Some e => (q1, Raise e)
      end
  end.

(** [client.torrents_info(...)]. *)
Definition torrents_info (q : QB) (client : client_or_false)
  : QB * outcome (list Torrent) :=
  match client with
  | PyFalse => (q, Raise AttributeError)
  | ClientObj => (qb_logged q TorrentsInfo, info_answer q)
  end.

(** The [try] body of one attempt of [delete_torrent]. *)
Definition delete_once (q : QB) (h : str) : QB * outcome unit :=
  match get_qbittorrent_client q with
  | (q1, Return client) => torrents_delete q1 client h
  | (q1, Raise e) => (q1, Raise e)
  end.

(** The [for attempt in range(MAX_RETRIES)] loop of [delete_torrent] and
    the [return False] after it. *)
Fixpoint delete_attempts (attempts : list nat) (q : QB) (h : str)
  : QB * bool :=
  match attempts with
  | [] => (q, false)
  | attempt :: rest =>
      match delete_once q h with
      | (q1, Return _) => (q1, true)
      | (q1, Raise e) =>
          if is_LoginFailed e then (q1, false)
          else if is_APIConnectionError e then
            if attempt <? MAX_RETRIES - 1
            then delete_attempts rest (qb_logged q1 (Sleep RETRY_DELAY)) h
            else (q1, false)
          else (q1, false)
      end
  end.

(** [delete_torrent(torrent_hash)]. *)
Definition delete_torrent (q : QB) (torrent_hash : str) : QB * bool :=
  delete_attempts (seq 0 MAX_RETRIES) q torrent_hash.

End Qbit.

(** ** Import orchestrator: [torrent_manager] *)

Module Orchestrator.
Import Matcher Relocator Qbit.

(** The configuration constants [torrents.py] imports. *)
Record Config : Type := {
  GAME_PATH : str;
  MAX_TORRENTS_PER_RUN : Z;
  DELETE_AFTER_PROCESSING : bool;
  ROMM_ENABLE : bool;
  ROMM_SCAN_AFTER_IMPORT : bool;
  REMOVE_EXTRAS : bool;
  ROMM_SCAN_DANGEROUS_FILETYPES : bool
}.

(** The calls into the other modules made after the loop. *)
Inductive post_call : Type :=
  | RemoveExtras
  | FindDangerousFiletypes
  | ScanAfterImport
  | ScanFileChanges.

(** Everything outside the process that a cycle touches. *)
Record World : Type := {
  fs : FS;
  qb : QB;
  catalog : load_result;
  remove_extras_answer : option exn;
  post_calls : list post_call
}.

Definition with_fs (w : World) (f : FS) : World :=
  {| fs := f; qb := qb w; catalog := catalog w;
     remove_extras_answer := remove_extras_answer w;
     post_calls := post_calls w |}.

Definition with_qb (w : World) (q : QB) : World :=
  {| fs := fs w; qb := q; catalog := catalog w;
     remove_extras_answer := remove_extras_answer w;
     post_calls := post_calls w |}.

Definition called (w : World) (c : post_call) : World :=
  {| fs := fs w; qb := qb w; catalog := catalog w;
     remove_extras_answer := remove_extras_answer w;
     post_calls := post_calls w ++ [c] |}.

(** The two accumulators of the loop. *)
Record Flags : Type := { replaced_any : bool; new_any : bool }.

Definition stoppedUP : str := lit "stoppedUP".

(** The body of [for torrent in completed_torrents]. *)
Definition process_torrent (cfg : Config) (w : World) (fl : Flags)
    (torrent : Torrent) : World * outcome Flags :=
  if eqb (state torrent) stoppedUP then
    let source := content_path torrent in
    match new_folder (catalog w) (name torrent) with
    | None => (w, Return fl)
    | Some new_name =>
        let destination := os_path_join (GAME_PATH cfg) new_name in
        match move_torrent_folder (fs w) source destination with
        | (f1, Raise e) => (with_fs w f1, Raise e)
        | (f1, Return (success, replaced, new)) =>
            let w1 := with_fs w f1 in
            if success then
              let fl1 :=
                {| replaced_any := if replaced then true else replaced_any fl;
                   new_any := if new then true else new_any fl |} in
              if DELETE_AFTER_PROCESSING cfg then
                let (q1, _) := delete_torrent (qb w1) (hash torrent) in
                (with_qb w1 q1, Return fl1)
              else (w1, Return fl1)
            else (w1, Return fl)
        end
    end
  else (w, Return fl).

(** The loop; an exception leaves it at once. *)
Fixpoint process_torrents (cfg : Config) (w : World) (fl : Flags)
    (torrents : list Torrent) : World * outcome Flags :=
  match torrents with
  | [] => (w, Return fl)
  | torrent :: rest =>
      match process_torrent cfg w fl torrent with
      | (w1, Return fl1) => process_torrents cfg w1 fl1 rest
      | (w1, Raise e) => (w1, Raise e)
      end
  end.

(** [library_cleanup.remove_extras()] can raise (it lists directories
    outside any [try]); the three ROMM entry points catch everything
    themselves. *)
Definition remove_extras (w : World) : World * option exn :=
  (called w RemoveExtras, remove_extras_answer w).

(** The part of [torrent_manager] after the loop. *)
Definition after_import (cfg : Config) (w : World) (fl : Flags) : World :=
  if ROMM_ENABLE cfg && ROMM_SCAN_AFTER_IMPORT cfg then
    let cleaned : World * option exn :=
      if replaced_any fl || new_any fl then
        let r := if REMOVE_EXTRAS cfg then remove_extras w else (w, None) in
        match r with
        | (w1, Some e) => (w1, Some e)
        | (w1, None) =>
            if ROMM_SCAN_DANGEROUS_FILETYPES cfg
            then (called w1 FindDangerousFiletypes, None)
            else (w1, None)
        end
      else (w, None) in
    match cleaned with
    | (w1, Some _) => w1
    | (w1, None) =>
        let w2 := if new_any fl then called w1 ScanAfterImport else w1 in
        if replaced_any fl then called w2 ScanFileChanges else w2
    end
  else w.

(** [torrent_manager()]: every exception ends in one of the three
    handlers, which only log. *)
Definition torrent_manager (cfg : Config) (w : World) : World :=
  match get_qbittorrent_client (qb w) with
  | (q1, Raise _) => with_qb w q1
  | (q1, Return client) =>
      match torrents_info q1 client with
      | (q2, Raise _) => with_qb w q2
      | (q2, Return listed) =>
          let completed_torrents :=
            if (0 <? MAX_TORRENTS_PER_RUN cfg)%Z
            then firstn (Z.to_nat (MAX_TORRENTS_PER_RUN cfg)) listed
            else listed in
          match process_torrents cfg (with_qb w q2)
                  {| replaced_any := false; new_any := false |}
                  completed_torrents with
          | (w1, Raise _) => w1
          | (w1, Return fl) => after_import cfg w1 fl
          end
      end
  end.

End Orchestrator.

(** ** Remote scan session: [RommAPI.scan_library] *)

Module Scan.

Inductive ws_call : Type :=
  | CreateConnection (timeout : Z)
  | Recv
  | Send (frame : str)
  | Close.

(** What one [ws.recv()] gives. *)
Inductive recv_answer : Type :=
  | Frame (text : str)
  | RecvRaise (e : exn).

(** One turn of the [while True] loop as the outside world answers it:
    the clock read at the top, the frame received, and what the
    [ws.send("3")] of a heartbeat would do. *)
Record turn : Type := {
  clock : Q;
  received : recv_answer;
  pong_answer : option exn
}.

(** The server and the clock for one session. *)
Record Env : Type := {
  connect_answer : option exn;
  hello : recv_answer;
  open_answer : option exn;
  confirm : recv_answer;
  command_answer : option exn;
  start_time : Q;
  turns : list turn;
  close_answer : option exn
}.

(** The message [["scan", {...}]] handed to [json.dumps]. *)
Record ScanMessage : Type := {
  platforms : list Z;
  scan_type : str;
  apis : list str
}.

Definition timeout : Z := 7200.

Definition quoted (s : str) : str := [34%N] ++ s ++ [34%N].

Definition scan_done : str := quoted (lit "scan:done").
Definition scan_stop : str := quoted (lit "scan:stop").

(** The default of [apis]. *)
Definition default_apis (scan_type : str) (apis : option (list str))
  : list str :=
  match apis with
  | Some l => l
  | None =>
      if negb (eqb scan_type (lit "hashes"))
      then [lit "sgdb"; lit "igdb"; lit "hltb"]
      else []
  end.

(** The [break] that ended the wait loop. *)
Inductive loop_exit : Type :=
  | CeilingElapsed
  | GotDone
  | GotStop
  | ReceiveTimeout
  | ReceiveError.

Definition handler_exit (e : exn) : loop_exit :=
  if is_WebSocketTimeoutException e then ReceiveTimeout else ReceiveError.

(** The [while True] loop.  [None]: the recorded turns ran out while the
    loop was still waiting. *)
Fixpoint wait_loop (start : Q) (ts : list turn) (log : list ws_call)
  : option (loop_exit * list ws_call) :=
  match ts with
  | [] => None
  | t :: rest =>
      if negb (Qle_bool (clock t - start) (inject_Z timeout))
      then Some (CeilingElapsed, log)
      else
        match received t with
        | RecvRaise e => Some (handler_exit e, log ++ [Recv])
        | Frame result =>
            let log1 := log ++ [Recv] in
            if contains result scan_done then Some (GotDone, log1)
            else if contains result scan_stop then Some (GotStop, log1)
            else if eqb result (lit "2") then
              match pong_answer t with
              | None => wait_loop start rest (log1 ++ [Send (lit "3")])
              | Some e => Some (handler_exit e, log1 ++ [Send (lit "3")])
              end
            else wait_loop start rest log1
        end
  end.

(** The result of a session: what [scan_library] returned, how the wait
    loop ended when it was reached, and the calls made on the socket. *)
Record Session : Type := {
  returned : bool;
  ended : option loop_exit;
  ws_calls : list ws_call
}.

Definition failed (log : list ws_call) : Session :=
  {| returned := false; ended := None; ws_calls := log |}.

(** [scan_library(platforms, scan_type, apis)], with [json.dumps] as
    [json_dumps].  [None]: the recorded turns ran out. *)
Definition scan_library (json_dumps : ScanMessage -> str) (env : Env)
    (platforms : list Z) (scan_type : str) (apis : option (list str))
  : option Session :=
  let message :=
    {| platforms := platforms; scan_type := scan_type;
       apis := default_apis scan_type apis |} in
  let message_formatted := lit "42" ++ json_dumps message in
  let log0 := [CreateConnection timeout] in
  match connect_answer env with
  | Some _ => Some (failed log0)
  | None =>
      match hello env with
      | RecvRaise _ => Some (failed (log0 ++ [Recv]))
      | Frame _ =>
          let log1 := log0 ++ [Recv; Send (lit "40")] in
          match open_answer env with
          | Some _ => Some (failed log1)
          | None =>
              match confirm env with
              | RecvRaise _ => Some (failed (log1 ++ [Recv]))
              | Frame _ =>
                  let log2 := log1 ++ [Recv; Send message_formatted] in
                  match command_answer env with
                  | Some _ => Some (failed log2)
                  | None =>
                      match wait_loop (start_time env) (turns env) log2 with
                      | None => None
                      | Some (how, log3) =>
                          let log4 := log3 ++ [Close] in
                          match close_answer env with
                          | Some _ =>
                              Some {| returned := false; ended := Some how;
                                      ws_calls := log4 |}
                          | None =>
                              Some {| returned := true; ended := Some how;
                                      ws_calls := log4 |}
                          end
                      end
                  end
              end
          end
      end
  end.

End Scan.

(** ** Maintenance sweeps: [find_empty] and [find_fragmented] *)

Module Sweeps.

Record GameFile : Type := { file_name : str }.

Record GameEntry : Type := {
  id : Z;
  name : str;
  fs_size_bytes : Z;
  files : list GameFile
}.

(** What [filter_games] returns: [None], a JSON object (with or without
    the key ['items']), a JSON array, or another JSON value. *)
Inductive api_data : Type :=
  | DataNone
  | DataDict (items : option (list GameEntry))
  | DataList (items : list GameEntry)
  | DataOther.

(** The [items] the sweeps iterate over; [None] when they return early. *)
Definition items_of (data : api_data) : option (list GameEntry) :=
  match data with
  | DataNone => None
  | DataDict (Some items) => Some items
  | DataDict None => Some []
  | DataList items => Some items
  | DataOther => Some []
  end.

(** The test of the loop of [find_empty]. *)
Definition is_empty_rom (item : GameEntry) : bool :=
  (fs_size_bytes item =? 0)%Z.

(** The test of the loop of [find_fragmented]. *)
Definition is_fragmented_rom (item : GameEntry) : bool :=
  (fs_size_bytes item <=? 1100)%Z.

(** The items a sweep's loop reports and queues for deletion. *)
Fixpoint found (test : GameEntry -> bool) (items : list GameEntry)
  : list GameEntry :=
  match items with
  | [] => []
  | item :: rest =>
      if test item then item :: found test rest else found test rest
  end.

(** The [game_ids] a sweep passes to [delete_games]; [None] when it makes
    no delete request. *)
Definition sweep (test : GameEntry -> bool) (data : api_data)
  : option (list Z) :=
  match items_of data with
  | None => None
  | Some [] => None
  | Some items =>
      match List.map id (found test items) with
      | [] => None
      | game_ids => Some game_ids
      end
  end.

Definition find_empty (data : api_data) : option (list Z) :=
  sweep is_empty_rom data.

Definition find_fragmented (data : api_data) : option (list Z) :=
  sweep is_fragmented_rom data.

End Sweeps.

(** ** The sweeps against the ROMM API: [romm_library_cleanup.py] *)

Module RommLibraryCleanup.
Import Sweeps.

(** One object of the list [get_platforms] returns; either key may be
    missing. *)
Record Platform : Type := {
  platform_id : option Z;
  fs_slug : option str
}.

(** The requests the sweeps send. [filter_games] is always called with
    [offset=0], [order_by="fs_size_bytes"], [order_dir="asc"] and
    [group_by_meta_id=True]; only [platform_id] varies. *)
Inductive api_call : Type :=
  | GetPlatforms
  | FilterGames (platform_id : option Z)
  | DeleteGames (game_ids : list Z).

(** The ROMM server as one sweep sees it: the configured slug, what
    [get_platforms] answers ([None] after any failed request), what
    [filter_games] answers for a platform, and the log of requests. *)
Record Romm : Type := {
  slug : str;
  platforms_answer : option (list Platform);
  games_answer : option Z -> api_data;
  api_calls : list api_call
}.

Definition requested (r : Romm) (c : api_call) : Romm :=
  {| slug := slug r; platforms_answer := platforms_answer r;
     games_answer := games_answer r; api_calls := api_calls r ++ [c] |}.

(** The loop of [get_platform_by_slug]: the [id] of the first platform
    whose [fs_slug] is the configured slug. *)
Fixpoint first_platform (wanted : str) (platforms : list Platform)
  : option Z :=
  match platforms with
  | [] => None
  | platform :: rest =>
      match fs_slug platform with
      | Some s =>
          if eqb s wanted then platform_id platform
          else first_platform wanted rest
      | None => first_platform wanted rest
      end
  end.

(** [RommAPI.get_platform_by_slug()]. *)
Definition get_platform_by_slug (r : Romm) : Romm * option Z :=
  (requested r GetPlatforms,
   match platforms_answer r with
   | Some platforms => first_platform (slug r) platforms
   | None => None
   end).

(** [filter_games(platform_id=...)]. *)
Definition filter_games (r : Romm) (platform : option Z) : Romm * api_data :=
  (requested r (FilterGames platform), games_answer r platform).

(** The common tail of the destructive sweeps: the loop over the items and
    the delete request for what it found. *)
Definition delete_found (test : GameEntry -> bool) (r : Romm)
    (data : api_data) : Romm :=
  match sweep test data with
  | Some game_ids => requested r (DeleteGames game_ids)
  | None => r
  end.

(** The platform a size sweep is restricted to: the configured one when
    [ROMM_EMPTY_DIRS_LIBRARY_SPECIFIC] is set, and none when it is not set
    or the platform is not found. *)
Definition sweep_platform (library_specific : bool) (r : Romm)
  : Romm * option Z :=
  if library_specific then get_platform_by_slug r else (r, None).

(** [find_empty()]. *)
Definition find_empty (library_specific : bool) (r : Romm) : Romm :=
  let (r1, platform) := sweep_platform library_specific r in
  let (r2, data) := filter_games r1 platform in
  delete_found is_empty_rom r2 data.

(** [find_fragmented()]. *)
Definition find_fragmented (library_specific : bool) (r : Romm) : Romm :=
  let (r1, platform) := sweep_platform library_specific r in
  let (r2, data) := filter_games r1 platform in
  delete_found is_fragmented_rom r2 data.

(** The inner loop of [find_missing_exe]: some file name ends in [.exe]. *)
Fixpoint is_exe_present (fs : list GameFile) : bool :=
  match fs with
  | [] => false
  | file :: rest =>
      if endswith (file_name file) (lit ".exe") then true
      else is_exe_present rest
  end.

Definition is_missing_exe (item : GameEntry) : bool :=
  negb (is_exe_present (files item)).

(** [find_missing_exe()]: without a platform id it returns at once. *)
Definition find_missing_exe (r : Romm) : Romm :=
  match get_platform_by_slug r with
  | (r1, None) => r1
  | (r1, Some platform) =>
      let (r2, data) := filter_games r1 (Some platform) in
      delete_found is_missing_exe r2 data
  end.

(** The extensions [find_dangerous_filetypes] looks for. *)
Definition dangerous_extensions : list str :=
  List.map lit
    [".bat"; ".cmd"; ".url"; ".m3u"; ".pdf"; ".js"; ".iso"; ".ics";
     ".msi"; ".msix"; ".msu"; ".one"; ".cpl"; ".cab"; ".gadget"; ".iqy";
     ".msp"; ".appx"; ".jse"; ".scr"; ".reg"; ".ws"; ".wse"; ".wsf"]%string.

(** [s.endswith(tuple)]. *)
Definition endswith_any (s : str) (suffixes : list str) : bool :=
  existsb (endswith s) suffixes.

(** The inner loop of [find_dangerous_filetypes]. *)
Fixpoint has_dangerous_file (fs : list GameFile) : bool :=
  match fs with
  | [] => false
  | file :: rest =>
      if endswith_any (file_name file) dangerous_extensions then true
      else has_dangerous_file rest
  end.

Definition is_dangerous (item : GameEntry) : bool :=
  has_dangerous_file (files item).

(** [find_dangerous_filetypes()], with the [game_ids] it reports. *)
Definition find_dangerous_filetypes (r : Romm) : Romm * list Z :=
  match get_platform_by_slug r with
  | (r1, None) => (r1, [])
  | (r1, Some platform) =>
      let (r2, data) := filter_games r1 (Some platform) in
      match items_of data with
      | None => (r2, [])
      | Some items => (r2, List.map id (found is_dangerous items))
      end
  end.

End RommLibraryCleanup.

(** ** Configuration lists: the ['list'] branch of [get_config_value] *)

Module ConfigParse.

(** [value.split(c)] for a one-character separator. *)
Fixpoint split_on (c : N) (s : str) : list str :=
  match s with
  | [] => [[]]
  | x :: s' =>
      if N.eqb x c then [] :: split_on c s'
      else
        match split_on c s' with
        | item :: items => (x :: item) :: items
        | [] => [[x]]
        end
  end.

(** [[item.strip() for item in items if item.strip()]]. *)
Fixpoint stripped_items (items : list str) : list str :=
  match items with
  | [] => []
  | item :: rest =>
      if is_empty (strip item) then stripped_items rest
      else strip item :: stripped_items rest
  end.

Definition comma : N := 44%N.

(** The value of the ['list'] branch for an option that is set. *)
Definition parse_list (value : str) : list str :=
  stripped_items (split_on comma value).

(** What [config_parser.get(section, option)] does. *)
Inductive lookup : Type :=
  | Found (value : str)
  | NotFound
  | LookupError.

(** What [get_config_value(..., default, "list")] returns: the parsed list,
    or [default] as it was passed, which for [EXTRAS_PATTERNS] is a
    string. *)
Inductive list_setting : Type :=
  | AsList (items : list str)
  | AsString (default : str).

Definition get_config_list (found : lookup) (default : str) : list_setting :=
  match found with
  | Found value => AsList (parse_list value)
  | NotFound => AsString default
  | LookupError => AsString default
  end.

Definition default_extras_patterns : str :=
  lit "soundtrack,ost,flac,wav,mp3,artbook,booklet,wallpaper".

(** [EXTRAS_PATTERNS]. *)
Definition EXTRAS_PATTERNS (found : lookup) : list_setting :=
  get_config_list found default_extras_patterns.

End ConfigParse.

(** ** Library clean-up: [library_cleanup.py] *)

Module LibraryCleanup.
Import ConfigParse.

(** [trim_path(path)]: the last part of the path and its parent. *)
Definition trim_path (path : str) : str :=
  match rev (split_on 47%N path) with
  | last :: parent :: _ => os_path_join parent last
  | [last] => last
  | [] => []
  end.

(** [for zip_string in zip_strings]: a list gives its items, a string its
    characters. *)
Definition iterate (setting : list_setting) : list str :=
  match setting with
  | AsList items => items
  | AsString s => List.map (fun c => [c]) s
  end.

(** One entry of a folder: its name, and what [os.path.getsize] raises
    for it, if anything (it is asked for regular files only). *)
Record Entry : Type := {
  file : str;
  getsize_answer : option exn
}.

(** One entry of the library root as [os.listdir] and [os.path.isdir]
    show it. *)
Record Folder : Type := {
  folder : str;
  isdir : bool;
  listing : outcome (list Entry)
}.

(** The settings [remove_extras] reads. *)
Record Settings : Type := {
  GAME_PATH : str;
  REMOVE_TEXT_FILES : bool;
  patterns : list_setting
}.

Section WithLower.

(** [str.lower]. *)
Variable lower : str -> str.

(** The test of the zip clean-up. *)
Definition is_extra (setting : list_setting) (file : str) : bool :=
  existsb (fun zip_string => contains (lower file) (lower zip_string))
    (iterate setting)
  && endswith file (lit ".zip").

(** The test of the text-file clean-up. *)
Definition is_site_text (file : str) : bool :=
  endswith file (lit "gog-games.to.txt").

(** The body of the inner loop: the paths handed to [os.remove]; an
    exception of [os.remove] is caught on the spot.  [format_size], of the
    helpers module, only feeds the log lines and is taken to return. *)
Definition removals_for (cfg : Settings) (folder_path file : str)
  : list str :=
  let file_path := os_path_join folder_path file in
  (if REMOVE_TEXT_FILES cfg && is_site_text file then [file_path] else [])
  ++ (if is_extra (patterns cfg) file then [file_path] else []).

(** The inner loop of [remove_extras()]: the paths handed to [os.remove],
    and the exception that ends the function early. *)
Fixpoint files_loop (cfg : Settings) (folder_path : str)
    (files : list Entry) : list str * option exn :=
  match files with
  | [] => ([], None)
  | f :: rest =>
      match getsize_answer f with
      | Some e => ([], Some e)
      | None =>
          let (later, e) := files_loop cfg folder_path rest in
          (removals_for cfg folder_path (file f) ++ later, e)
      end
  end.

(** The outer loop, over the entries of the library root. *)
Fixpoint remove_extras_in (cfg : Settings) (folders : list Folder)
  : list str * option exn :=
  match folders with
  | [] => ([], None)
  | f :: rest =>
      if isdir f then
        match listing f with
        | Raise e => ([], Some e)
        | Return files =>
            match files_loop cfg (os_path_join (GAME_PATH cfg) (folder f))
                    files with
            | (here, Some e) => (here, Some e)
            | (here, None) =>
                let (later, e) := remove_extras_in cfg rest in
                (here ++ later, e)
            end
        end
      else remove_extras_in cfg rest
  end.

(** [remove_extras()]. *)
Definition remove_extras (cfg : Settings) (root : outcome (list Folder))
  : list str * option exn :=
  match root with
  | Raise e => ([], Some e)
  | Return folders => remove_extras_in cfg folders
  end.

End WithLower.

End LibraryCleanup.

(** ** Vocabulary of the matcher's properties *)

Module MatcherSpec.
Import Matcher.

Abbreviation len x := (length (slug x)).

(** Ascending slug length. *)
Inductive ascending : list CatalogEntry -> Prop :=
  | asc_nil : ascending []
  | asc_cons x l :
      (forall y, In y l -> len x <= len y) -> ascending l ->
      ascending (x :: l).

(** The items of one slug length, in list order. *)
Fixpoint of_len (n : nat) (l : list CatalogEntry) : list CatalogEntry :=
  match l with
  | [] => []
  | y :: l' => if len y =? n then y :: of_len n l' else of_len n l'
  end.

(** The test of the second loop in the specification's words: [slug]
    contains the working name and is at most ten characters longer. *)
Definition qualifies (w : str) (x : CatalogEntry) : Prop :=
  (exists before after, slug x = before ++ w ++ after) /\
  (Z.of_nat (length (slug x)) - Z.of_nat (length w) <= 10)%Z.

(** A string that does not start with whitespace. *)
Definition tidy (s : str) : Prop :=
  match s with [] => True | c :: _ => isspace c = false end.

End MatcherSpec.

(** ** Vocabulary of the relocator's properties *)

Module RelocatorSpec.
Import Relocator.

(** The move of [source] to [destination] succeeds from [w]: [os.rename]
    does, or it raises an [OSError] and [shutil.move] then does. *)
Definition move_succeeds (w : FS) (source destination : str) : Prop :=
  (exists w1, os_rename w source destination = (w1, None)) \/
  (exists w1 e w2,
      os_rename w source destination = (w1, Some e) /\
      is_OSError e = true /\
      shutil_move w1 source destination = (w2, None)).

(** A filesystem with no injected failure. *)
Definition healthy (m : gmap (list N) kind) : FS :=
  {| nodes := m; rmtree_fault := fun _ => None;
     rename_fault := fun _ _ => None; move_fault := fun _ _ => None;
     calls := [] |}.

(** The same, on which every [os.rename] fails as across devices. *)
Definition cross_device (m : gmap (list N) kind) : FS :=
  {| nodes := m; rmtree_fault := fun _ => None;
     rename_fault := fun _ _ => Some OSError; move_fault := fun _ _ => None;
     calls := [] |}.

End RelocatorSpec.

(** ** Vocabulary of the torrent client's properties *)

Module QbitSpec.
Import Qbit.

(** A client that has answered nothing yet. *)
Definition fresh_client (login delete : nat -> option exn) : QB :=
  {| login_answer := login; delete_answer := delete;
     info_answer := Return []; n_login := 0; n_delete := 0;
     qb_calls := [] |}.

(** Answers that fail once with [e] and succeed from then on. *)
Definition fails_first (e : exn) (n : nat) : option exn :=
  match n with 0 => Some e | S _ => None end.

Definition always (a : option exn) (n : nat) : option exn := a.

End QbitSpec.

(** ** Vocabulary of the orchestrator's properties *)

Module OrchestratorSpec.
Import Matcher Relocator RelocatorSpec Qbit QbitSpec Orchestrator.

(** The relocation [process_torrent] attempts for a torrent, when it gets
    that far: the call of [move_torrent_folder] and its result. *)
Definition relocation (cfg : Config) (w : World) (torrent : Torrent)
  : option (FS * outcome (bool * bool * bool)) :=
  if eqb (state torrent) stoppedUP then
    match new_folder (catalog w) (name torrent) with
    | None => None
    | Some new_name =>
        Some (move_torrent_folder (fs w) (content_path torrent)
                (os_path_join (GAME_PATH cfg) new_name))
    end
  else None.

(** A configuration that deletes torrents after processing. *)
Definition deleting (root : str) : Config :=
  {| GAME_PATH := root; MAX_TORRENTS_PER_RUN := 0;
     DELETE_AFTER_PROCESSING := true; ROMM_ENABLE := true;
     ROMM_SCAN_AFTER_IMPORT := true; REMOVE_EXTRAS := true;
     ROMM_SCAN_DANGEROUS_FILETYPES := true |}.

(** A world with a working client and the given files and catalog. *)
Definition world_of (m : gmap (list N) kind) (data : list CatalogEntry)
  : World :=
  {| fs := healthy m; qb := fresh_client (always None) (always None);
     catalog := Loaded data; remove_extras_answer := None;
     post_calls := [] |}.

End OrchestratorSpec.

(** ** Vocabulary of the scan session's properties *)

Module ScanSpec.
Import Scan.

(** A server that accepts the connection, completes the handshake, takes
    the command at time [0] and then answers the wait loop with [script];
    closing succeeds. *)
Definition server (script : list turn) : Env :=
  {| connect_answer := None;
     hello := Frame (lit "0{}");
     open_answer := None;
     confirm := Frame (lit "40{}");
     command_answer := None;
     start_time := inject_Z 0;
     turns := script;
     close_answer := None |}.

(** A server that accepts the connection and then drops it: the first
    [recv] raises. *)
Definition dropping : Env :=
  {| connect_answer := None;
     hello := RecvRaise OtherException;
     open_answer := None;
     confirm := Frame (lit "40{}");
     command_answer := None;
     start_time := inject_Z 0;
     turns := [];
     close_answer := None |}.

(** A turn at [seconds] past the start on which [answer] is received. *)
Definition at_time (seconds : Z) (answer : recv_answer) : turn :=
  {| clock := inject_Z seconds; received := answer; pong_answer := None |}.

Definition ping : recv_answer := Frame (lit "2").

(** What the caller and the state machine see of a session. *)
Definition verdict (s : option Session) : option (bool * option loop_exit) :=
  match s with
  | Some s => Some (returned s, ended s)
  | None => None
  end.

Definition calls_of (s : option Session) : list ws_call :=
  match s with
  | Some s => ws_calls s
  | None => []
  end.

End ScanSpec.

(** ** Vocabulary of the sweeps' properties *)

Module SweepsSpec.
Import Sweeps.

(** A game of the given size. *)
Definition game (i size : Z) : GameEntry :=
  {| id := i; name := lit "game"; fs_size_bytes := size; files := [] |}.

End SweepsSpec.

(** ** Vocabulary of the further properties *)

Module MoreSpec.
Import Relocator Qbit Orchestrator.

(** The calls one deletion of the torrent [h] may make. *)
Definition deletion_call (h : str) (c : qb_call) : Prop :=
  c = Connect \/ c = TorrentsDelete h false \/ c = Sleep RETRY_DELAY.

Definition is_login (c : qb_call) : bool :=
  match c with Connect => true | _ => false end.

Definition is_delete_request (c : qb_call) : bool :=
  match c with TorrentsDelete _ _ => true | _ => false end.

Definition is_sleep (c : qb_call) : bool :=
  match c with Sleep _ => true | _ => false end.

(** How many calls of a log pass a test. *)
Definition count {A : Type} (test : A -> bool) (l : list A) : nat :=
  length (List.filter test l).

Definition is_rename (c : fs_call) : bool :=
  match c with Rename _ _ => true | _ => false end.

Definition is_rmtree (c : fs_call) : bool :=
  match c with Rmtree _ => true | _ => false end.

(** The torrents the client lists, none when the request fails. *)
Definition listed (w : World) : list Torrent :=
  match info_answer (qb w) with
  | Return torrents => torrents
  | Raise _ => []
  end.

End MoreSpec.

(** ** Vocabulary of the further scan properties *)

Module ScanMoreSpec.
Import Scan.

Definition is_recv (c : ws_call) : bool :=
  match c with Recv => true | _ => false end.

Definition is_send (c : ws_call) : bool :=
  match c with Send _ => true | _ => false end.

(** The two calls the wait loop makes on the socket. *)
Definition wait_call (c : ws_call) : Prop :=
  c = Recv \/ c = Send (lit "3").

End ScanMoreSpec.

(** ** Vocabulary of the clean-up properties *)

Module CleanupSpec.
Import Sweeps RommLibraryCleanup ConfigParse LibraryCleanup.

(** The delete request a sweep makes for the [game_ids] it collected, if
    any. *)
Definition deletion (game_ids : option (list Z)) : list api_call :=
  match game_ids with
  | Some ids => [DeleteGames ids]
  | None => []
  end.

(** No file name of the item ends in [.exe]. *)
Definition lacks_exe (item : GameEntry) : Prop :=
  forall f, In f (files item) -> endswith (file_name f) (lit ".exe") = false.

(** [c.join(items)] for a one-character [c]. *)
Fixpoint join_with (c : N) (items : list str) : str :=
  match items with
  | [] => []
  | [item] => item
  | item :: rest => item ++ c :: join_with c rest
  end.

(** An item as [parse_list] returns it: not empty, trimmed, without
    comma. *)
Definition clean_item (item : str) : Prop :=
  item <> [] /\ strip item = item /\ ~ In comma item.

(** Lower-casing of the ASCII capitals only. *)
Definition ascii_lower (s : str) : str :=
  List.map (fun c => if ((65 <=? c) && (c <=? 90))%N then (c + 32)%N else c) s.

(** What the properties assume of [str.lower]: it keeps the suffix [.zip]
    and the letter [p]. *)
Definition keeps_zip (lower : str -> str) : Prop :=
  (forall s, exists u, lower (s ++ lit ".zip") = u ++ lit ".zip") /\
  lower (lit "p") = lit "p".

End CleanupSpec.

(** * Properties *)

(** ** Strings *)

Module PyStrFacts.

Lemma eqb_eq (a b : str) : eqb a b = true <-> a = b.
Proof.
  revert b; induction a as [|x a IH]; intros [|y b]; simpl;
    try (split; [discriminate | congruence]); [tauto|].
  rewrite andb_true_iff, N.eqb_eq, IH.
  split; [intros [-> ->]; reflexivity | intros H; injection H; auto].
Qed.

Lemma eqb_neq (a b : str) : eqb a b = false <-> a <> b.
Proof.
  rewrite <- eqb_eq. destruct (eqb a b); split; congruence.
Qed.

Lemma startswith_spec (s p : str) :
  startswith s p = true <-> exists t, s = p ++ t.
Proof.
  revert s; induction p as [|x p IH]; intros s; simpl.
  - split; [intros _; exists s; reflexivity | destruct s; reflexivity].
  - destruct s as [|y s]; simpl.
    + split; [discriminate | intros [t Ht]; discriminate].
    + rewrite andb_true_iff, N.eqb_eq, IH. split.
      * intros [-> [t ->]]. exists t; reflexivity.
      * intros [t Ht]. injection Ht as -> ->. split; [reflexivity | eauto].
Qed.

(** [needle in hay] is the substring relation. *)
Lemma contains_spec (hay needle : str) :
  contains hay needle = true <->
  exists pre post, hay = pre ++ needle ++ post.
Proof.
  induction hay as [|c hay IH].
  - change (contains [] needle) with (startswith [] needle || false).
    rewrite orb_false_r, startswith_spec. split.
    + intros [t Ht]. exists [], t. exact Ht.
    + intros (pre & post & H). destruct pre; [|discriminate].
      exists post. exact H.
  - change (contains (c :: hay) needle)
      with (startswith (c :: hay) needle || contains hay needle).
    rewrite orb_true_iff, startswith_spec, IH. split.
    + intros [[t Ht] | (pre & post & ->)].
      * exists [], t. exact Ht.
      * exists (c :: pre), post. reflexivity.
    + intros (pre & post & H). destruct pre as [|d pre].
      * left. exists post. exact H.
      * right. injection H as -> ->. eauto.
Qed.


Lemma is_empty_true (s : str) : is_empty s = true <-> s = [].
Proof. destruct s; simpl; split; congruence. Qed.

Lemma is_empty_false (s : str) : is_empty s = false <-> s <> [].
Proof. destruct s; simpl; split; congruence. Qed.



(** *** [replace] and [strip] *)

Lemma remove_char_In (c x : N) (s : str) :
  In x (remove_char c s) <-> In x s /\ x <> c.
Proof.
  induction s as [|y s IH]; simpl; [tauto|].
  destruct (N.eqb_spec y c) as [-> | Hne]; simpl; rewrite IH.
  - split; [tauto|]. intros [[<- | H] Hx]; [congruence | tauto].
  - split; [|tauto]. intros [<- | H]; [split; [auto | exact Hne] | tauto].
Qed.

Lemma remove_char_absent (c : N) (s : str) :
  ~ In c s -> remove_char c s = s.
Proof.
  induction s as [|y s IH]; simpl; [reflexivity|]. intros H.
  destruct (N.eqb_spec y c) as [-> | Hne]; [tauto|].
  rewrite IH; [reflexivity | tauto].
Qed.

Lemma lstrip_In (x : N) (s : str) : In x (lstrip s) -> In x s.
Proof.
  induction s as [|y s IH]; simpl; [tauto|].
  destruct (isspace y); [auto | tauto].
Qed.

Lemma strip_In (x : N) (s : str) : In x (strip s) -> In x s.
Proof.
  unfold strip, rstrip. rewrite <- in_rev. intros H.
  apply lstrip_In in H. rewrite <- in_rev in H. apply lstrip_In, H.
Qed.

Lemma lstrip_tidy (s : str) : MatcherSpec.tidy (lstrip s).
Proof.
  induction s as [|c s IH]; simpl; [exact I|].
  destruct (isspace c) eqn:E; [exact IH | exact E].
Qed.

Lemma lstrip_of_tidy (s : str) : MatcherSpec.tidy s -> lstrip s = s.
Proof. destruct s as [|c s]; simpl; [reflexivity|]. intros ->. reflexivity. Qed.

Lemma lstrip_snoc (s : str) (c : N) :
  isspace c = false -> lstrip (s ++ [c]) = lstrip s ++ [c].
Proof.
  intros Hc. induction s as [|x s IH]; simpl.
  - rewrite Hc. reflexivity.
  - destruct (isspace x); [exact IH | reflexivity].
Qed.

Lemma rstrip_tidy (s : str) : MatcherSpec.tidy s -> MatcherSpec.tidy (rstrip s).
Proof.
  destruct s as [|c s]; [intros _; exact I|]. simpl. intros Hc.
  unfold rstrip. simpl rev. rewrite (lstrip_snoc _ _ Hc), rev_app_distr.
  exact Hc.
Qed.

(** [strip] is idempotent. *)
Lemma strip_strip (s : str) : strip (strip s) = strip s.
Proof.
  unfold strip at 1.
  rewrite lstrip_of_tidy by (apply rstrip_tidy, lstrip_tidy).
  unfold strip, rstrip. rewrite rev_involutive.
  rewrite (lstrip_of_tidy (lstrip _)) by apply lstrip_tidy.
  reflexivity.
Qed.

End PyStrFacts.

(** ** The catalog matcher *)

Module MatcherFacts.
Import Matcher MatcherSpec PyStrFacts.

(** *** The first loop *)

Lemma exact_pass_none (w : str) (data : list CatalogEntry) :
  (forall x, In x data -> slug x <> w) -> exact_pass w data = None.
Proof.
  induction data as [|x data IH]; intros H; simpl; [reflexivity|].
  destruct (eqb w (slug x)) eqn:E.
  - apply eqb_eq in E. exfalso. apply (H x); [left; reflexivity | auto].
  - apply IH. intros y Hy. apply H. right; exact Hy.
Qed.

Lemma exact_pass_first (w : str) (pre post : list CatalogEntry)
    (e : CatalogEntry) :
  slug e = w ->
  (forall x, In x pre -> slug x <> w) ->
  exact_pass w (pre ++ e :: post) = Some (title e).
Proof.
  intros He. induction pre as [|x pre IH]; intros H; simpl.
  - replace (eqb w (slug e)) with true; [reflexivity|].
    symmetry. apply eqb_eq. auto.
  - destruct (eqb w (slug x)) eqn:E.
    + apply eqb_eq in E. exfalso. apply (H x); [left; reflexivity | auto].
    + apply IH. intros y Hy. apply H. right; exact Hy.
Qed.

(** *** The sort *)

(** Where [insert_by_len] puts an item: after items that are strictly
    shorter, and nothing else moves. *)
Lemma insert_by_len_split (x : CatalogEntry) (l : list CatalogEntry) :
  exists A B, insert_by_len x l = A ++ x :: B /\ l = A ++ B /\
              forall y, In y A -> len y < len x.
Proof.
  induction l as [|y l (A & B & E & El & HA)]; simpl.
  - exists [], []. repeat split. intros y [].
  - destruct (len x <=? len y) eqn:C.
    + exists [], (y :: l). repeat split. intros z [].
    + apply Nat.leb_gt in C. exists (y :: A), B. rewrite E, El.
      repeat split. intros z [<- | Hz]; [exact C | auto].
Qed.

Lemma insert_by_len_perm (x : CatalogEntry) (l : list CatalogEntry) :
  Permutation (insert_by_len x l) (x :: l).
Proof.
  induction l as [|y l IH]; simpl; [reflexivity|].
  destruct (len x <=? len y); [reflexivity|].
  rewrite IH. apply perm_swap.
Qed.

Lemma sorted_by_len_perm (data : list CatalogEntry) :
  Permutation (sorted_by_len data) data.
Proof.
  induction data as [|x data IH]; simpl; [reflexivity|].
  rewrite insert_by_len_perm, IH. reflexivity.
Qed.

Lemma sorted_by_len_In (data : list CatalogEntry) (y : CatalogEntry) :
  In y (sorted_by_len data) <-> In y data.
Proof.
  split; apply Permutation_in;
    [|symmetry]; apply sorted_by_len_perm.
Qed.

Lemma insert_by_len_ascending (x : CatalogEntry) (l : list CatalogEntry) :
  ascending l -> ascending (insert_by_len x l).
Proof.
  induction 1 as [|y l Hy Hl IH]; simpl.
  - constructor; [intros y [] | constructor].
  - destruct (len x <=? len y) eqn:C.
    + apply Nat.leb_le in C. constructor; [|constructor; assumption].
      intros z [<- | Hz]; [exact C|]. specialize (Hy z Hz). lia.
    + apply Nat.leb_gt in C. constructor; [|exact IH].
      intros z Hz. apply (Permutation_in _ (insert_by_len_perm x l)) in Hz.
      destruct Hz as [<- | Hz]; [lia | auto].
Qed.

Lemma sorted_by_len_ascending (data : list CatalogEntry) :
  ascending (sorted_by_len data).
Proof.
  induction data; simpl; [constructor | apply insert_by_len_ascending; auto].
Qed.

Lemma of_len_insert (n : nat) (x : CatalogEntry) (l : list CatalogEntry) :
  of_len n (insert_by_len x l) = of_len n (x :: l).
Proof.
  induction l as [|y l IH]; [reflexivity|].
  cbn [insert_by_len]. destruct (len x <=? len y) eqn:C; [reflexivity|].
  apply Nat.leb_gt in C.
  change (of_len n (y :: insert_by_len x l))
    with (if len y =? n then y :: of_len n (insert_by_len x l)
          else of_len n (insert_by_len x l)).
  rewrite IH. cbn [of_len].
  destruct (len y =? n) eqn:Ey; [|reflexivity].
  apply Nat.eqb_eq in Ey.
  destruct (len x =? n) eqn:Ex; [|reflexivity].
  apply Nat.eqb_eq in Ex. lia.
Qed.

(** The sort is stable: items of equal slug length keep their order. *)
Lemma sorted_by_len_stable (n : nat) (data : list CatalogEntry) :
  of_len n (sorted_by_len data) = of_len n data.
Proof.
  induction data as [|x data IH]; [reflexivity|].
  cbn [sorted_by_len]. rewrite of_len_insert.
  cbn [of_len]. rewrite IH. reflexivity.
Qed.

(** *** The second loop on the sorted catalog *)

(** Inserting before a list split at [e], when everything before [e] is
    no longer than [e]: what ends up before [e] was there already, or is
    the inserted item and is no longer than [e]. *)
Lemma insert_by_len_around (p e : CatalogEntry) (A B : list CatalogEntry) :
  (forall y, In y A -> len y <= len e) ->
  exists A' B',
    insert_by_len p (A ++ e :: B) = A' ++ e :: B' /\
    forall y, In y A' -> In y A \/ (y = p /\ len p <= len e).
Proof.
  induction A as [|a A IH]; intros HA; simpl.
  - destruct (len p <=? len e) eqn:C.
    + apply Nat.leb_le in C. exists [p], B. split; [reflexivity|].
      intros y [<- | []]. right; auto.
    + exists [], (insert_by_len p B). split; [reflexivity|]. intros y [].
  - destruct (len p <=? len a) eqn:C.
    + apply Nat.leb_le in C. exists (p :: a :: A), B. split; [reflexivity|].
      intros y [<- | Hy]; [|left; exact Hy].
      right. split; [reflexivity|].
      specialize (HA a (or_introl eq_refl)). lia.
    + destruct IH as (A' & B' & E & HA').
      { intros y Hy. apply HA. right; exact Hy. }
      exists (a :: A'), B'. rewrite E. split; [reflexivity|].
      intros y [<- | Hy]; [left; left; reflexivity|].
      destruct (HA' y Hy) as [H | H]; [left; right; exact H | right; exact H].
Qed.

(** The sorted catalog around an item [e] of the catalog: before [e] come
    only items no longer than [e] that preceded it, and strictly shorter
    items that followed it. *)
Lemma sorted_by_len_around (pre post : list CatalogEntry) (e : CatalogEntry) :
  exists A B,
    sorted_by_len (pre ++ e :: post) = A ++ e :: B /\
    forall y, In y A ->
      (In y pre /\ len y <= len e) \/ (In y post /\ len y < len e).
Proof.
  induction pre as [|p pre (A & B & E & HA)]; simpl.
  - destruct (insert_by_len_split e (sorted_by_len post))
      as (A & B & E & El & HA).
    exists A, B. split; [exact E|]. intros y Hy. right. split; [|auto].
    apply sorted_by_len_In. rewrite El. apply in_or_app. left; exact Hy.
  - rewrite E. destruct (insert_by_len_around p e A B) as (A' & B' & E' & HA').
    { intros y Hy. destruct (HA y Hy) as [[_ H] | [_ H]]; lia. }
    exists A', B'. split; [exact E'|]. intros y Hy.
    destruct (HA' y Hy) as [H | [-> H]].
    + destruct (HA y H) as [[H1 H2] | [H1 H2]]; [left | right]; auto.
    + left. auto.
Qed.

Lemma partial_scan_skip (w : str) (A B : list CatalogEntry)
    (e : CatalogEntry) :
  (forall y, In y A -> partial_ok w y = false) ->
  partial_ok w e = true ->
  partial_scan w (A ++ e :: B) = Some (title e).
Proof.
  intros HA He. induction A as [|a A IH]; simpl.
  - rewrite He. reflexivity.
  - rewrite (HA a (or_introl eq_refl)). apply IH.
    intros y Hy. apply HA. right; exact Hy.
Qed.

Lemma partial_scan_none (w : str) (l : list CatalogEntry) :
  (forall y, In y l -> partial_ok w y = false) -> partial_scan w l = None.
Proof.
  induction l as [|a l IH]; intros H; simpl; [reflexivity|].
  rewrite (H a (or_introl eq_refl)). apply IH.
  intros y Hy. apply H. right; exact Hy.
Qed.

(** The second loop picks the first item of the catalog that passes the
    test and is strictly shorter than every passing item before it and no
    longer than any passing item after it. *)
Lemma partial_scan_sorted (w : str) (pre post : list CatalogEntry)
    (e : CatalogEntry) :
  partial_ok w e = true ->
  (forall y, In y pre -> partial_ok w y = true -> len e < len y) ->
  (forall y, In y post -> partial_ok w y = true -> len e <= len y) ->
  partial_scan w (sorted_by_len (pre ++ e :: post)) = Some (title e).
Proof.
  intros He Hpre Hpost.
  destruct (sorted_by_len_around pre post e) as (A & B & -> & HA).
  apply partial_scan_skip; [|exact He].
  intros y Hy. destruct (partial_ok w y) eqn:Ok; [exfalso|reflexivity].
  destruct (HA y Hy) as [[H1 H2] | [H1 H2]].
  - specialize (Hpre y H1 Ok). lia.
  - specialize (Hpost y H1 Ok). lia.
Qed.

(** *** The test of the second loop, in the specification's words *)

Lemma partial_ok_qualifies (w : str) (x : CatalogEntry) :
  partial_ok w x = true -> qualifies w x.
Proof.
  unfold partial_ok, qualifies.
  rewrite !andb_true_iff, contains_spec, Nat.leb_le.
  intros [[_ H] L]. split; [exact H | lia].
Qed.

(** The [if slug] guard only excludes what the first loop would have
    matched. *)
Lemma qualifies_partial_ok (w : str) (x : CatalogEntry) :
  slug x <> w -> qualifies w x -> partial_ok w x = true.
Proof.
  unfold partial_ok, qualifies. intros Hne [H L].
  rewrite !andb_true_iff, contains_spec, Nat.leb_le.
  repeat split; [|exact H | lia].
  destruct (slug x) eqn:E; [|reflexivity].
  exfalso. apply Hne. destruct H as (b & a & H).
  destruct b; [|discriminate]. destruct w; [reflexivity | discriminate].
Qed.

(** *** The whole function *)

Lemma new_folder_loaded (torrent_name : str) (data : list CatalogEntry) :
  torrent_name <> [] ->
  new_folder (Loaded data) torrent_name =
  Some (finish torrent_name (lookup_name (working_name torrent_name) data)).
Proof.
  intros H. unfold new_folder.
  destruct torrent_name; [contradiction | reflexivity].
Qed.

(** C3, as amended: for a non-empty torrent name whose working name (the
    name cut at the first [_windows_gog_]) equals the slug of a catalog
    entry, [new_folder] returns the title of the first such entry with the
    glyphs removed and the whitespace trimmed, and the untouched torrent
    name when nothing is left of that title; entries that would match
    partially play no part. *)
Theorem exact_match_wins (torrent_name : str)
    (pre post : list CatalogEntry) (e : CatalogEntry) :
  torrent_name <> [] ->
  slug e = working_name torrent_name ->
  (forall x, In x pre -> slug x <> working_name torrent_name) ->
  new_folder (Loaded (pre ++ e :: post)) torrent_name =
  Some (if is_empty (strip (remove_glyphs (title e))) then torrent_name
        else strip (remove_glyphs (title e))).
Proof.
  intros Hne He Hpre. rewrite new_folder_loaded by exact Hne.
  unfold lookup_name. rewrite (exact_pass_first _ pre post e He Hpre).
  reflexivity.
Qed.

(** An instance of [exact_match_wins]: a longer slug that contains the
    working name comes first in the catalog, and the exact entry's title
    carries a registered sign and a trailing blank. *)
Lemma exact_match_wins_witness :
  let dlc := {| slug := lit "the_witcher_3"; title := lit "The Witcher 3" |} in
  let game := {| slug := lit "the_witcher";
                 title := lit "The Witcher" ++ [174%N; 32%N] |} in
  let torrent_name := lit "the_witcher_windows_gog_(1)" in
  torrent_name <> [] /\
  slug game = working_name torrent_name /\
  partial_ok (working_name torrent_name) dlc = true /\
  new_folder (Loaded ([dlc] ++ game :: [])) torrent_name =
  Some (lit "The Witcher").
Proof.
  cbv zeta. split; [discriminate|]. split; [reflexivity|].
  split; [reflexivity|].
  apply (exact_match_wins (lit "the_witcher_windows_gog_(1)")
           [{| slug := lit "the_witcher_3"; title := lit "The Witcher 3" |}]
           []
           {| slug := lit "the_witcher";
              title := lit "The Witcher" ++ [174%N; 32%N] |}).
  - discriminate.
  - reflexivity.
  - intros x [<- | []]. discriminate.
Defined.

(** C3 as stated fails on two inputs: a title of which nothing is left
    after the glyphs are removed (the torrent name comes back, not the
    empty title), and an empty torrent name (nothing comes back). *)
Lemma exact_match_counterexample :
  let e := {| slug := lit "tm"; title := [8482%N] |} in
  let torrent_name := lit "tm_windows_gog_(1)" in
  let blank := {| slug := []; title := lit "Untitled" |} in
  (slug e = working_name torrent_name /\
   strip (remove_glyphs (title e)) = [] /\
   new_folder (Loaded [e]) torrent_name = Some torrent_name /\
   new_folder (Loaded [e]) torrent_name
     <> Some (strip (remove_glyphs (title e)))) /\
  (slug blank = working_name [] /\
   new_folder (Loaded [blank]) [] = None).
Proof.
  cbv zeta. repeat split; try reflexivity. discriminate.
Qed.

(** C4, as amended: for a non-empty torrent name whose working name is the
    slug of no catalog entry, let [e] be the entry that qualifies (its slug
    contains the working name and is at most ten characters longer) with
    the shortest slug, the earliest in catalog order among those of that
    length.  [new_folder] returns the title of [e] with the glyphs removed
    and the whitespace trimmed, and the untouched torrent name when nothing
    is left of that title. *)
Theorem shortest_partial_match_wins (torrent_name : str)
    (pre post : list CatalogEntry) (e : CatalogEntry) :
  torrent_name <> [] ->
  (forall x, In x (pre ++ e :: post) -> slug x <> working_name torrent_name) ->
  qualifies (working_name torrent_name) e ->
  (forall x, In x pre -> qualifies (working_name torrent_name) x ->
             length (slug e) < length (slug x)) ->
  (forall x, In x post -> qualifies (working_name torrent_name) x ->
             length (slug e) <= length (slug x)) ->
  new_folder (Loaded (pre ++ e :: post)) torrent_name =
  Some (if is_empty (strip (remove_glyphs (title e))) then torrent_name
        else strip (remove_glyphs (title e))).
Proof.
  intros Hne Hex He Hpre Hpost. rewrite new_folder_loaded by exact Hne.
  unfold lookup_name. rewrite (exact_pass_none _ _ Hex).
  rewrite (partial_scan_sorted (working_name torrent_name) pre post e).
  - reflexivity.
  - apply qualifies_partial_ok; [|exact He].
    apply Hex. apply in_or_app. right; left; reflexivity.
  - intros y Hy Ok. apply Hpre; [exact Hy | apply partial_ok_qualifies, Ok].
  - intros y Hy Ok. apply Hpost; [exact Hy | apply partial_ok_qualifies, Ok].
Qed.

(** An instance of [shortest_partial_match_wins] for the torrent name
    [witcher]: the catalog holds a slug that is too long to qualify, one
    that does not contain the name, a qualifying slug of ten characters,
    then two qualifying slugs of nine; the first of the two is chosen. *)
Lemma shortest_partial_match_wins_witness :
  let goty := {| slug := lit "witcher-3-wild-hunt-goty";
                 title := lit "The Witcher 3 GOTY" |} in
  let witch := {| slug := lit "witch"; title := lit "Witch" |} in
  let ten := {| slug := lit "witcher-3x"; title := lit "Witcher 3X" |} in
  let two := {| slug := lit "witcher-2";
                title := lit " The Witcher 2" ++ [8482%N] |} in
  let four := {| slug := lit "witcher-4"; title := lit "The Witcher 4" |} in
  let torrent_name := lit "witcher" in
  torrent_name <> [] /\
  qualifies (working_name torrent_name) ten /\
  qualifies (working_name torrent_name) two /\
  qualifies (working_name torrent_name) four /\
  new_folder (Loaded ([goty; witch; ten] ++ two :: [four])) torrent_name =
  Some (lit "The Witcher 2").
Proof.
  cbv zeta.
  assert (forall x, contains (slug x) (lit "witcher") = false ->
                    ~ qualifies (working_name (lit "witcher")) x) as No.
  { intros x C [H _]. apply contains_spec in H.
    change (working_name (lit "witcher")) with (lit "witcher") in H.
    congruence. }
  split; [discriminate|].
  split; [split; [exists [], (lit "-3x"); reflexivity | vm_compute; discriminate]|].
  split; [split; [exists [], (lit "-2"); reflexivity | vm_compute; discriminate]|].
  split; [split; [exists [], (lit "-4"); reflexivity | vm_compute; discriminate]|].
  apply (shortest_partial_match_wins (lit "witcher")
           [{| slug := lit "witcher-3-wild-hunt-goty";
               title := lit "The Witcher 3 GOTY" |};
            {| slug := lit "witch"; title := lit "Witch" |};
            {| slug := lit "witcher-3x"; title := lit "Witcher 3X" |}]
           [{| slug := lit "witcher-4"; title := lit "The Witcher 4" |}]
           {| slug := lit "witcher-2";
              title := lit " The Witcher 2" ++ [8482%N] |}).
  - discriminate.
  - intros x [<- | [<- | [<- | [<- | [<- | []]]]]]; discriminate.
  - split; [exists [], (lit "-2"); reflexivity | vm_compute; discriminate].
  - intros x [<- | [<- | [<- | []]]] Q.
    + vm_compute. lia.
    + exfalso. revert Q. apply No. reflexivity.
    + vm_compute. lia.
  - intros x [<- | []] _. vm_compute. lia.
Defined.

(** C4 as stated fails on two inputs: a title of which nothing is left
    after trimming (the torrent name comes back, neither the title nor the
    trimmed title), and an empty torrent name (nothing comes back). *)
Lemma shortest_partial_match_counterexample :
  let e := {| slug := lit "blank-game"; title := [32%N] |} in
  let torrent_name := lit "blank" in
  (slug e <> working_name torrent_name /\
   qualifies (working_name torrent_name) e /\
   new_folder (Loaded [e]) torrent_name = Some torrent_name /\
   new_folder (Loaded [e]) torrent_name <> Some (title e) /\
   new_folder (Loaded [e]) torrent_name
     <> Some (strip (remove_glyphs (title e)))) /\
  (slug e <> working_name [] /\
   qualifies (working_name []) e /\
   new_folder (Loaded [e]) [] = None).
Proof.
  cbv zeta. split.
  - split; [discriminate|]. split.
    { split; [exists [], (lit "-game"); reflexivity | vm_compute; discriminate]. }
    split; [reflexivity|]. split; discriminate.
  - split; [discriminate|]. split; [|reflexivity].
    split; [exists [], (lit "blank-game"); reflexivity | vm_compute; discriminate].
Qed.

(** C6: the torrent [cyberpunk_2077_windows_gog_(12345)] against a catalog
    that holds only the slug [cyberpunk-2077] is cut to [cyberpunk_2077],
    which no slug equals and no slug contains, so [new_folder] returns the
    cut name unchanged. *)
Theorem cyberpunk_falls_through :
  let torrent_name := lit "cyberpunk_2077_windows_gog_(12345)" in
  let catalog :=
    [{| slug := lit "cyberpunk-2077"; title := lit "Cyberpunk 2077" |}] in
  working_name torrent_name = lit "cyberpunk_2077" /\
  exact_pass (lit "cyberpunk_2077") catalog = None /\
  contains (lit "cyberpunk-2077") (lit "cyberpunk_2077") = false /\
  partial_scan (lit "cyberpunk_2077") (sorted_by_len catalog) = None /\
  new_folder (Loaded catalog) torrent_name = Some (lit "cyberpunk_2077").
Proof.
  cbv zeta.
  assert (working_name (lit "cyberpunk_2077_windows_gog_(12345)")
          = lit "cyberpunk_2077") as W by reflexivity.
  assert (contains (lit "cyberpunk-2077") (lit "cyberpunk_2077") = false)
    as C by reflexivity.
  split; [exact W|]. split; [reflexivity|]. split; [exact C|].
  assert (partial_scan (lit "cyberpunk_2077")
            (sorted_by_len
               [{| slug := lit "cyberpunk-2077";
                   title := lit "Cyberpunk 2077" |}]) = None) as P.
  { apply partial_scan_none. intros y [<- | []].
    unfold partial_ok. cbn [slug]. rewrite C, andb_false_r. reflexivity. }
  split; [exact P|].
  rewrite new_folder_loaded by discriminate.
  rewrite W. unfold lookup_name. rewrite P. reflexivity.
Qed.

(** *** Further properties of the matcher *)

(** The model of [sorted(data, key=...)] is the stable sort by slug
    length: a permutation of the catalog, in ascending slug length, in
    which the entries of each length keep their catalog order. *)
Theorem sorted_by_len_is_stable_sort (data : list CatalogEntry) :
  Permutation (sorted_by_len data) data /\
  ascending (sorted_by_len data) /\
  forall n, of_len n (sorted_by_len data) = of_len n data.
Proof.
  split; [apply sorted_by_len_perm|].
  split; [apply sorted_by_len_ascending|].
  intros n. apply sorted_by_len_stable.
Qed.

(** With neither an exact nor a qualifying partial match, [new_folder]
    returns the working name, trimmed, and the untouched torrent name when
    nothing is left of it. *)
Theorem no_match_falls_back (torrent_name : str)
    (data : list CatalogEntry) :
  torrent_name <> [] ->
  (forall x, In x data -> slug x <> working_name torrent_name) ->
  (forall x, In x data -> ~ qualifies (working_name torrent_name) x) ->
  new_folder (Loaded data) torrent_name =
  Some (finish torrent_name (working_name torrent_name)).
Proof.
  intros Hne Hex Hq. rewrite new_folder_loaded by exact Hne.
  unfold lookup_name. rewrite (exact_pass_none _ _ Hex).
  rewrite partial_scan_none; [reflexivity|].
  intros y Hy. destruct (partial_ok _ y) eqn:Ok; [exfalso|reflexivity].
  apply (proj1 (sorted_by_len_In data y)) in Hy.
  apply (Hq y Hy), partial_ok_qualifies, Ok.
Qed.

(** [no_match_falls_back] on a name whose only near match is more than
    ten characters longer. *)
Lemma no_match_falls_back_witness :
  let far := {| slug := lit "witcher-3-wild-hunt-goty";
                title := lit "The Witcher 3 GOTY" |} in
  let torrent_name := lit "witcher_windows_gog_(7)" in
  torrent_name <> [] /\
  contains (slug far) (working_name torrent_name) = true /\
  new_folder (Loaded [far]) torrent_name = Some (lit "witcher").
Proof.
  cbv zeta. split; [discriminate|]. split; [reflexivity|].
  apply (no_match_falls_back (lit "witcher_windows_gog_(7)")
           [{| slug := lit "witcher-3-wild-hunt-goty";
               title := lit "The Witcher 3 GOTY" |}]).
  - discriminate.
  - intros x [<- | []]. discriminate.
  - intros x [<- | []] [_ H]. vm_compute in H. apply H. reflexivity.
Defined.

Lemma remove_glyphs_In (x : N) (s : str) :
  In x (remove_glyphs s) <-> In x s /\ ~ In x glyphs.
Proof.
  unfold remove_glyphs, glyphs. cbn [fold_left].
  rewrite !remove_char_In. simpl. intuition congruence.
Qed.

Lemma remove_glyphs_clean (s : str) :
  (forall x, In x s -> ~ In x glyphs) -> remove_glyphs s = s.
Proof.
  intros H. unfold remove_glyphs, glyphs. cbn [fold_left].
  assert (forall c, In c glyphs -> ~ In c s) as A
    by (intros c Hc Hs; exact (H c Hs Hc)).
  rewrite (remove_char_absent 169 s) by (apply A; simpl; auto).
  rewrite (remove_char_absent 174 s) by (apply A; simpl; auto).
  apply remove_char_absent, A. simpl; auto.
Qed.

(** The cleaning step of [new_folder] (glyphs removed, whitespace trimmed)
    is idempotent. *)
Theorem cleaning_is_idempotent (s : str) :
  strip (remove_glyphs (strip (remove_glyphs s)))
  = strip (remove_glyphs s).
Proof.
  rewrite (remove_glyphs_clean (strip (remove_glyphs s))).
  - apply strip_strip.
  - intros x Hx. apply strip_In, remove_glyphs_In in Hx. tauto.
Qed.

End MatcherFacts.

(** ** The relocator *)

Module RelocatorFacts.
Import Relocator RelocatorSpec.

Lemma isdir_exists (w : FS) (p : str) :
  os_path_isdir w p = true -> os_path_exists w p = true.
Proof.
  unfold os_path_isdir, os_path_exists.
  destruct (nodes w !! p) as [[|]|]; congruence.
Qed.

(** What [rename_or_move] returns when the move succeeds. *)
Lemma rename_or_move_success (w : FS) (source destination : str)
    (replaced : bool) :
  move_succeeds w source destination ->
  snd (rename_or_move w source destination replaced)
  = Return (true, replaced, true).
Proof.
  unfold rename_or_move.
  intros [[w1 E] | (w1 & e & w2 & E & He & E')]; rewrite E.
  - reflexivity.
  - rewrite He, E'. reflexivity.
Qed.

(** Every successful return of [rename_or_move] sets [new]. *)
Lemma rename_or_move_new (w w' : FS) (source destination : str)
    (replaced0 replaced new : bool) :
  rename_or_move w source destination replaced0
  = (w', Return (true, replaced, new)) ->
  new = true.
Proof.
  unfold rename_or_move.
  destruct (os_rename w source destination) as [w1 [e|]];
    [|intros H; injection H; auto].
  destruct (is_OSError e); [|discriminate].
  destruct (shutil_move w1 source destination) as [w2 [e'|]];
    [|intros H; injection H; auto].
  destruct (is_OSError e' || is_ShutilError e'); discriminate.
Qed.

(** C5: [move_torrent_folder] on a source that is an existing directory
    returns [(True, True, True)] when the destination exists, its deletion
    succeeds and the move succeeds, and [(True, False, True)] when the
    destination is absent and the move succeeds; on a source that does not
    exist or is not a directory it returns [(False, False, False)] and
    leaves the filesystem, the log of mutating calls included, as it was. *)
Theorem move_torrent_folder_contract (w : FS) (source destination : str) :
  (forall w1,
      os_path_isdir w source = true ->
      os_path_exists w destination = true ->
      shutil_rmtree w destination = (w1, None) ->
      move_succeeds w1 source destination ->
      snd (move_torrent_folder w source destination)
      = Return (true, true, true)) /\
  (os_path_isdir w source = true ->
   os_path_exists w destination = false ->
   move_succeeds w source destination ->
   snd (move_torrent_folder w source destination)
   = Return (true, false, true)) /\
  (os_path_exists w source = false \/ os_path_isdir w source = false ->
   move_torrent_folder w source destination
   = (w, Return (false, false, false))).
Proof.
  unfold move_torrent_folder. split; [|split].
  - intros w1 Hdir Hdst Hrm Hmv.
    rewrite (isdir_exists _ _ Hdir), Hdir, Hdst, Hrm. simpl.
    apply rename_or_move_success, Hmv.
  - intros Hdir Hdst Hmv.
    rewrite (isdir_exists _ _ Hdir), Hdir, Hdst. simpl.
    apply rename_or_move_success, Hmv.
  - intros [H | H].
    + rewrite H. reflexivity.
    + rewrite H. destruct (os_path_exists w source); reflexivity.
Qed.

(** The three cases of [move_torrent_folder_contract] on concrete
    filesystems: an old version replaced through the copy fallback, a new
    folder renamed into place, and a source that is a file. *)
Lemma move_torrent_folder_contract_witness :
  let source := lit "/downloads/game_windows_gog_(1)" in
  let destination := lit "/library/Game" in
  let both := cross_device (<[source := Dir]> (<[destination := Dir]> ∅)) in
  let fresh := healthy (<[source := Dir]> ∅) in
  let file := healthy (<[source := File]> (<[destination := Dir]> ∅)) in
  snd (move_torrent_folder both source destination)
  = Return (true, true, true) /\
  calls (fst (move_torrent_folder both source destination))
  = [Rmtree destination; Rename source destination;
     ShutilMove source destination] /\
  snd (move_torrent_folder fresh source destination)
  = Return (true, false, true) /\
  move_torrent_folder file source destination
  = (file, Return (false, false, false)).
Proof.
  cbv zeta.
  set (source := lit "/downloads/game_windows_gog_(1)").
  set (destination := lit "/library/Game").
  set (both := cross_device (<[source := Dir]> (<[destination := Dir]> ∅))).
  set (fresh := healthy (<[source := Dir]> ∅)).
  set (file := healthy (<[source := File]> (<[destination := Dir]> ∅))).
  split; [|split; [reflexivity|split]].
  - apply (proj1 (move_torrent_folder_contract both source destination)
             (fst (shutil_rmtree both destination))).
    + reflexivity.
    + reflexivity.
    + reflexivity.
    + right.
      exists (fst (os_rename (fst (shutil_rmtree both destination))
                     source destination)), OSError,
        (fst (shutil_move
                (fst (os_rename (fst (shutil_rmtree both destination))
                        source destination)) source destination)).
      repeat split; reflexivity.
  - apply (proj1 (proj2 (move_torrent_folder_contract fresh source destination))).
    + reflexivity.
    + reflexivity.
    + left. exists (fst (os_rename fresh source destination)). reflexivity.
  - apply (proj2 (proj2 (move_torrent_folder_contract file source destination))).
    right. reflexivity.
Defined.

(** C10: whenever [move_torrent_folder] returns with [success] true, [new]
    is true as well; no input makes it return [(True, replaced, False)]. *)
Theorem success_sets_new (w w' : FS) (source destination : str)
    (replaced new : bool) :
  move_torrent_folder w source destination
  = (w', Return (true, replaced, new)) ->
  new = true.
Proof.
  unfold move_torrent_folder.
  destruct (negb (os_path_exists w source)); [discriminate|].
  destruct (negb (os_path_isdir w source)); [discriminate|].
  destruct (os_path_exists w destination).
  - destruct (shutil_rmtree w destination) as [w1 [e|]].
    + destruct (is_OSError e); discriminate.
    + apply rename_or_move_new.
  - apply rename_or_move_new.
Qed.

(** [success_sets_new] on a rename into an empty place. *)
Lemma success_sets_new_witness :
  let source := lit "/downloads/game" in
  let destination := lit "/library/Game" in
  let w := healthy (<[source := Dir]> ∅) in
  snd (move_torrent_folder w source destination)
  = Return (true, false, true) /\ true = true.
Proof.
  cbv zeta. split; [reflexivity|].
  apply (success_sets_new
           (healthy (<[lit "/downloads/game" := Dir]> ∅))
           (fst (move_torrent_folder
                   (healthy (<[lit "/downloads/game" := Dir]> ∅))
                   (lit "/downloads/game") (lit "/library/Game")))
           (lit "/downloads/game") (lit "/library/Game") false true).
  reflexivity.
Defined.

End RelocatorFacts.

(** ** The torrent client *)

Module QbitFacts.
Import Qbit QbitSpec.

(** One attempt whose log-in succeeds and whose delete request raises. *)
Lemma delete_once_raises (q : QB) (h : str) (e : exn) :
  login_answer q (n_login q) = None ->
  delete_answer q (n_delete q) = Some e ->
  delete_once q h
  = (next_delete
       (qb_logged (next_login (qb_logged q Connect)) (TorrentsDelete h false)),
     Raise e).
Proof.
  intros Hl Hd. unfold delete_once, get_qbittorrent_client. rewrite Hl.
  unfold torrents_delete. cbn. rewrite Hd. reflexivity.
Qed.

(** A log-in that raises a connection error makes the attempt end in an
    [AttributeError]: [get_qbittorrent_client] returns [False]. *)
Lemma delete_once_connect_error (q : QB) (h : str) (e : exn) :
  login_answer q (n_login q) = Some e ->
  is_APIConnectionError e = true ->
  delete_once q h = (next_login (qb_logged q Connect), Raise AttributeError).
Proof.
  intros Hl He. unfold delete_once, get_qbittorrent_client.
  rewrite Hl, He. reflexivity.
Qed.

(** A connection error (not a log-in failure) raised by the delete request
    itself is retried after a fixed delay: three attempts in all, two
    sleeps of [RETRY_DELAY] seconds, then [False]. *)
Lemma delete_request_errors_are_retried (h : str) :
  let q := fresh_client (always None) (always (Some APIConnectionError)) in
  snd (delete_torrent q h) = false /\
  qb_calls (fst (delete_torrent q h))
  = [Connect; TorrentsDelete h false; Sleep 5;
     Connect; TorrentsDelete h false; Sleep 5;
     Connect; TorrentsDelete h false].
Proof. cbv zeta. split; reflexivity. Qed.

(** A log-in failure, at the log-in or at the delete request, ends the
    deletion at once with [False]. *)
Lemma login_failure_is_final (q : QB) (h : str) :
  login_answer q (n_login q) = Some LoginFailed \/
  (login_answer q (n_login q) = None /\
   delete_answer q (n_delete q) = Some LoginFailed) ->
  snd (delete_torrent q h) = false /\
  forall c, In c (qb_calls (fst (delete_torrent q h))) ->
            In c (qb_calls q) \/ c = Connect \/ c = TorrentsDelete h false.
Proof.
  unfold delete_torrent. cbn [seq MAX_RETRIES delete_attempts].
  intros [Hl | [Hl Hd]].
  - rewrite (delete_once_connect_error q h LoginFailed Hl eq_refl). cbn.
    split; [reflexivity|]. intros c Hc. apply in_app_or in Hc.
    destruct Hc as [Hc | [<- | []]]; auto.
  - rewrite (delete_once_raises q h LoginFailed Hl Hd). cbn.
    split; [reflexivity|]. intros c Hc.
    apply in_app_or in Hc. destruct Hc as [Hc | [<- | []]]; [|auto].
    apply in_app_or in Hc. destruct Hc as [Hc | [<- | []]]; auto.
Qed.

(** C7, where the code departs from it: a transient connection error at
    the log-in of the first attempt ends the deletion with [False] after
    that single attempt, without a sleep or a second log-in, although the
    second log-in would have succeeded; the same error raised by the delete
    request is retried, and the deletion then succeeds. *)
Theorem connect_error_is_not_retried (h : str) :
  let down := fresh_client (fails_first APIConnectionError) (always None) in
  let flaky := fresh_client (always None) (fails_first APIConnectionError) in
  (snd (delete_torrent down h) = false /\
   qb_calls (fst (delete_torrent down h)) = [Connect]) /\
  (snd (delete_torrent flaky h) = true /\
   qb_calls (fst (delete_torrent flaky h))
   = [Connect; TorrentsDelete h false; Sleep RETRY_DELAY;
      Connect; TorrentsDelete h false]).
Proof. cbv zeta. repeat split; reflexivity. Qed.

(** The same for any client and any connection error at the log-in. *)
Lemma connect_error_ends_deletion (q : QB) (h : str) (e : exn) :
  login_answer q (n_login q) = Some e ->
  is_APIConnectionError e = true ->
  delete_torrent q h = (next_login (qb_logged q Connect), false).
Proof.
  intros Hl He. unfold delete_torrent. cbn [seq MAX_RETRIES delete_attempts].
  rewrite (delete_once_connect_error q h e Hl He). reflexivity.
Qed.

End QbitFacts.

(** ** The orchestrator *)

Module OrchestratorFacts.
Import Matcher Relocator RelocatorSpec Qbit QbitSpec.
Import Orchestrator OrchestratorSpec.

(** C8: when the relocation of a torrent returns [success = False], the
    body of the loop makes no call to the torrent client (so no delete is
    issued and the torrent stays), leaves the two flags as they were, and
    the loop goes on with the next torrent. *)
Theorem failed_relocation_keeps_torrent (cfg : Config) (w : World)
    (fl : Flags) (torrent : Torrent) (rest : list Torrent)
    (f1 : FS) (replaced new : bool) :
  relocation cfg w torrent = Some (f1, Return (false, replaced, new)) ->
  qb (fst (process_torrent cfg w fl torrent)) = qb w /\
  snd (process_torrent cfg w fl torrent) = Return fl /\
  process_torrents cfg w fl (torrent :: rest)
  = process_torrents cfg (with_fs w f1) fl rest.
Proof.
  unfold relocation. cbn [process_torrents]. unfold process_torrent.
  destruct (eqb (state torrent) stoppedUP); [|discriminate].
  destruct (new_folder (catalog w) (name torrent)) as [new_name|];
    [|discriminate].
  intros H. injection H as H. rewrite H. cbn. repeat split.
Qed.

(** [failed_relocation_keeps_torrent] on a torrent whose content path does
    not exist, followed by one that is moved and deleted. *)
Lemma failed_relocation_keeps_torrent_witness :
  let gone := {| name := lit "gone_windows_gog_(1)"; hash := lit "aa";
                 content_path := lit "/downloads/gone";
                 state := lit "stoppedUP" |} in
  let here := {| name := lit "here_windows_gog_(2)"; hash := lit "bb";
                 content_path := lit "/downloads/here";
                 state := lit "stoppedUP" |} in
  let w := world_of (<[lit "/downloads/here" := Dir]> ∅) [] in
  let cfg := deleting (lit "/library") in
  let fl := {| replaced_any := false; new_any := false |} in
  relocation cfg w gone = Some (fs w, Return (false, false, false)) /\
  qb (fst (process_torrent cfg w fl gone)) = qb w /\
  qb_calls (qb (fst (process_torrents cfg w fl [gone; here])))
  = [Connect; TorrentsDelete (lit "bb") false].
Proof.
  cbv zeta.
  set (gone := {| name := lit "gone_windows_gog_(1)"; hash := lit "aa";
                  content_path := lit "/downloads/gone";
                  state := lit "stoppedUP" |}).
  set (here := {| name := lit "here_windows_gog_(2)"; hash := lit "bb";
                  content_path := lit "/downloads/here";
                  state := lit "stoppedUP" |}).
  set (w := world_of (<[lit "/downloads/here" := Dir]> ∅) []).
  set (cfg := deleting (lit "/library")).
  set (fl := {| replaced_any := false; new_any := false |}).
  assert (relocation cfg w gone = Some (fs w, Return (false, false, false)))
    as R by reflexivity.
  destruct (failed_relocation_keeps_torrent cfg w fl gone [here]
              (fs w) false false R) as (H1 & _ & H3).
  split; [exact R|]. split; [exact H1|].
  rewrite H3. reflexivity.
Defined.

(** The converse reading: the body of the loop touches the torrent client
    only after a relocation that returned [success = True], and only when
    deletion after processing is configured. *)
Lemma client_called_only_after_success (cfg : Config) (w : World)
    (fl : Flags) (torrent : Torrent) :
  qb (fst (process_torrent cfg w fl torrent)) = qb w \/
  (DELETE_AFTER_PROCESSING cfg = true /\
   exists f1 replaced new,
     relocation cfg w torrent = Some (f1, Return (true, replaced, new))).
Proof.
  unfold relocation, process_torrent.
  destruct (eqb (state torrent) stoppedUP); [|left; reflexivity].
  destruct (new_folder (catalog w) (name torrent)) as [new_name|];
    [|left; reflexivity].
  destruct (move_torrent_folder _ _ _) as [f1 [[[[|] replaced] new]|e]];
    try (left; reflexivity).
  destruct (DELETE_AFTER_PROCESSING cfg); [|left; reflexivity].
  right. split; [reflexivity|]. eauto.
Qed.

End OrchestratorFacts.

(** ** The scan session *)

Module ScanFacts.
Import Scan ScanSpec.

(** Once the wait loop is reached and ends, the socket is closed, and the
    call returns [True] if the close does not raise - however the loop
    ended. *)
Lemma session_after_wait (json_dumps : ScanMessage -> str) (env : Env)
    (platforms : list Z) (scan_type : str) (apis : option (list str))
    (f1 f2 : str) (how : loop_exit) (log : list ws_call) :
  connect_answer env = None ->
  hello env = Frame f1 ->
  open_answer env = None ->
  confirm env = Frame f2 ->
  command_answer env = None ->
  wait_loop (start_time env) (turns env)
    [CreateConnection timeout; Recv; Send (lit "40"); Recv;
     Send (lit "42" ++ json_dumps
             {| Scan.platforms := platforms;
                Scan.scan_type := scan_type;
                Scan.apis := default_apis scan_type apis |})]
  = Some (how, log) ->
  scan_library json_dumps env platforms scan_type apis
  = Some {| returned := match close_answer env with
                        | None => true
                        | Some _ => false
                        end;
            ended := Some how;
            ws_calls := log ++ [Close] |}.
Proof.
  intros Hc Hh Ho Hf Hs Hw. unfold scan_library.
  rewrite Hc, Hh, Ho, Hf, Hs. cbn [app]. rewrite Hw.
  destruct (close_answer env); reflexivity.
Qed.


(** C1, where the code departs from it: a session whose wait ends in a
    receive timeout, in another receive error, or by the two-hour ceiling
    while only pings arrive, returns [True], exactly as one that receives
    ["scan:done"]. *)
Theorem timed_out_session_returns_true (json_dumps : ScanMessage -> str)
    (platforms : list Z) (scan_type : str) (apis : option (list str)) :
  let run script :=
    verdict (scan_library json_dumps (server script) platforms scan_type apis) in
  run [at_time 60 (RecvRaise WebSocketTimeoutException)]
  = Some (true, Some ReceiveTimeout) /\
  run [at_time 60 (RecvRaise OtherException)]
  = Some (true, Some ReceiveError) /\
  run [at_time 25 ping; at_time 3600 ping; at_time 7201 ping]
  = Some (true, Some CeilingElapsed) /\
  run [at_time 25 ping; at_time 90 (Frame (lit "42[" ++ scan_done ++ lit ",{}]"))]
  = Some (true, Some GotDone).
Proof. cbv zeta. repeat split; reflexivity. Qed.

(** Whenever the wait loop was reached and ended, the last call on the
    socket is the close. *)
Lemma closed_after_wait (json_dumps : ScanMessage -> str) (env : Env)
    (platforms : list Z) (scan_type : str) (apis : option (list str))
    (s : Session) (how : loop_exit) :
  scan_library json_dumps env platforms scan_type apis = Some s ->
  ended s = Some how ->
  exists log, ws_calls s = log ++ [Close].
Proof.
  unfold scan_library, failed. intros H T.
  destruct (connect_answer env); [injection H as <-; discriminate|].
  destruct (hello env); [|injection H as <-; discriminate].
  destruct (open_answer env); [injection H as <-; discriminate|].
  destruct (confirm env); [|injection H as <-; discriminate].
  destruct (command_answer env); [injection H as <-; discriminate|].
  destruct (wait_loop _ _ _) as [[how' log]|]; [|discriminate].
  destruct (close_answer env); injection H as <-; exists log; reflexivity.
Qed.

(** C2, where the code departs from it: when the connection is established
    and the first [recv] of the handshake raises, the call returns [False]
    and the socket was never closed: the calls made on it are the
    connection and that [recv]. *)
Theorem handshake_failure_leaves_socket_open
    (json_dumps : ScanMessage -> str) (platforms : list Z)
    (scan_type : str) (apis : option (list str)) :
  let s := scan_library json_dumps dropping platforms scan_type apis in
  verdict s = Some (false, None) /\
  calls_of s = [CreateConnection timeout; Recv] /\
  ~ In Close (calls_of s).
Proof.
  cbv zeta. split; [reflexivity|]. split; [reflexivity|].
  cbn. intros [H | [H | []]]; discriminate.
Qed.

(** The same on every failure between the connection and the wait loop:
    no call of [close] is made. *)
Lemma no_close_before_wait (json_dumps : ScanMessage -> str) (env : Env)
    (platforms : list Z) (scan_type : str) (apis : option (list str))
    (s : Session) :
  scan_library json_dumps env platforms scan_type apis = Some s ->
  ended s = None ->
  ~ In Close (ws_calls s).
Proof.
  unfold scan_library, failed. intros H T.
  destruct (connect_answer env).
  { injection H as <-. cbn. intros [C | []]; discriminate. }
  destruct (hello env).
  2:{ injection H as <-. cbn. intros [C | [C | []]]; discriminate. }
  destruct (open_answer env).
  { injection H as <-. cbn. intros [C | [C | [C | []]]]; discriminate. }
  destruct (confirm env).
  2:{ injection H as <-. cbn.
      intros [C | [C | [C | [C | []]]]]; discriminate. }
  destruct (command_answer env).
  { injection H as <-. cbn.
    intros [C | [C | [C | [C | [C | []]]]]]; discriminate. }
  destruct (wait_loop _ _ _) as [[how log]|]; [|discriminate].
  destruct (close_answer env); injection H as <-; discriminate.
Qed.

End ScanFacts.

(** ** The sweeps *)

Module SweepsFacts.
Import Sweeps SweepsSpec.

Lemma found_In (test : GameEntry -> bool) (items : list GameEntry)
    (x : GameEntry) :
  In x (found test items) <-> In x items /\ test x = true.
Proof.
  induction items as [|y items IH]; simpl; [tauto|].
  destruct (test y) eqn:T; simpl; rewrite IH; split.
  - intros [<- | [H1 H2]]; auto.
  - intros [[<- | H1] H2]; auto.
  - intros [H1 H2]; auto.
  - intros [[<- | H1] H2]; [congruence | auto].
Qed.

(** The ids a sweep deletes are those of the items its loop found. *)
Lemma sweep_deletes_found (test : GameEntry -> bool)
    (items : list GameEntry) (x : GameEntry) :
  In x (found test items) ->
  exists game_ids,
    sweep test (DataList items) = Some game_ids /\ In (id x) game_ids.
Proof.
  intros H. unfold sweep, items_of.
  destruct items as [|y items]; [destruct H|].
  pose proof (in_map id _ _ H) as Hid.
  destruct (List.map id (found test (y :: items))) as [|i ids];
    [destruct Hid|].
  exists (i :: ids). split; [reflexivity | exact Hid].
Qed.

(** C9: in every inventory, an entry of size [0] is found and deleted by
    both [find_empty] and [find_fragmented], whose selections therefore
    overlap (everything the first finds, the second finds too); an entry
    of size [1100] is found and deleted by [find_fragmented], the bound
    being inclusive, and is not found by [find_empty]. *)
Theorem sweeps_overlap (items : list GameEntry) (item : GameEntry) :
  In item items ->
  (fs_size_bytes item = 0%Z ->
   In item (found is_empty_rom items) /\
   In item (found is_fragmented_rom items) /\
   (exists ids, find_empty (DataList items) = Some ids /\ In (id item) ids) /\
   (exists ids,
       find_fragmented (DataList items) = Some ids /\ In (id item) ids)) /\
  (fs_size_bytes item = 1100%Z ->
   In item (found is_fragmented_rom items) /\
   ~ In item (found is_empty_rom items) /\
   (exists ids,
       find_fragmented (DataList items) = Some ids /\ In (id item) ids)) /\
  (forall x, In x (found is_empty_rom items) ->
             In x (found is_fragmented_rom items)).
Proof.
  intros Hin. split; [|split].
  - intros Z0.
    assert (In item (found is_empty_rom items)) as E.
    { apply found_In. split; [exact Hin|].
      unfold is_empty_rom. rewrite Z0. reflexivity. }
    assert (In item (found is_fragmented_rom items)) as F.
    { apply found_In. split; [exact Hin|].
      unfold is_fragmented_rom. rewrite Z0. reflexivity. }
    repeat split; try assumption.
    + apply sweep_deletes_found, E.
    + apply sweep_deletes_found, F.
  - intros Z1.
    assert (In item (found is_fragmented_rom items)) as F.
    { apply found_In. split; [exact Hin|].
      unfold is_fragmented_rom. rewrite Z1. reflexivity. }
    split; [exact F|]. split; [|apply sweep_deletes_found, F].
    rewrite found_In. unfold is_empty_rom. rewrite Z1.
    intros [_ H]. discriminate.
  - intros x. rewrite !found_In. unfold is_empty_rom, is_fragmented_rom.
    intros [H1 H2]. split; [exact H1|].
    apply Z.eqb_eq in H2. rewrite H2. reflexivity.
Qed.

(** [sweeps_overlap] on an inventory in ascending size, at its empty
    entry and at its entry of [1100] bytes. *)
Lemma sweeps_overlap_witness :
  let items := [game 1 0; game 2 1100; game 3 1101] in
  In (game 1 0) items /\ In (game 2 1100) items /\
  find_empty (DataList items) = Some [1%Z] /\
  find_fragmented (DataList items) = Some [1%Z; 2%Z] /\
  In (game 1 0) (found is_fragmented_rom items) /\
  ~ In (game 2 1100) (found is_empty_rom items).
Proof.
  cbv zeta.
  split; [left; reflexivity|]. split; [right; left; reflexivity|].
  split; [reflexivity|]. split; [reflexivity|]. split.
  - apply (proj1 (sweeps_overlap [game 1 0; game 2 1100; game 3 1101]
                    (game 1 0) (or_introl eq_refl)) eq_refl).
  - apply (proj1 (proj2 (sweeps_overlap [game 1 0; game 2 1100; game 3 1101]
                           (game 2 1100) (or_intror (or_introl eq_refl))))
             eq_refl).
Defined.

End SweepsFacts.

(** ** More on the catalog matcher *)

Module MatcherMore.
Import Matcher MatcherSpec PyStrFacts MatcherFacts.






Lemma strip_tidy (s : str) : tidy (strip s) /\ tidy (rev (strip s)).
Proof.
  split.
  - apply rstrip_tidy, lstrip_tidy.
  - unfold strip, rstrip. rewrite rev_involutive. apply lstrip_tidy.
Qed.

(** What [new_folder] returns is the untouched torrent name, or a string
    without copyright, registered or trademark sign that neither starts
    nor ends with whitespace. *)
Theorem new_folder_is_clean_or_raw (file : load_result)
    (torrent_name new_name : str) :
  new_folder file torrent_name = Some new_name ->
  new_name = torrent_name \/
  ((forall c, In c new_name -> ~ In c glyphs) /\
   tidy new_name /\ tidy (rev new_name)).
Proof.
  unfold new_folder. destruct (is_empty torrent_name); [discriminate|].
  destruct file as [data|]; [|discriminate].
  intros H. injection H as <-. unfold finish.
  set (t := lookup_name (working_name torrent_name) data).
  destruct (is_empty (strip (remove_glyphs t))); [left; reflexivity|].
  right. split; [|apply strip_tidy].
  intros c Hc. apply strip_In, remove_glyphs_In in Hc. tauto.
Qed.

(** [new_folder_is_clean_or_raw] on a title with a registered sign and
    blanks around it. *)
Lemma new_folder_is_clean_or_raw_witness :
  let e := {| slug := lit "game";
              title := lit "  The Game" ++ [174%N] ++ lit " " |} in
  new_folder (Loaded [e]) (lit "game_windows_gog_(3)")
  = Some (lit "The Game") /\
  tidy (lit "The Game") /\ tidy (rev (lit "The Game")).
Proof.
  cbv zeta. split; [reflexivity|].
  destruct (new_folder_is_clean_or_raw
              (Loaded [{| slug := lit "game";
                          title := lit "  The Game" ++ [174%N] ++ lit " " |}])
              (lit "game_windows_gog_(3)") (lit "The Game") eq_refl)
    as [H | (_ & H1 & H2)]; [discriminate H|].
  split; assumption.
Defined.

End MatcherMore.

(** ** More on the relocator *)

Module RelocatorMore.
Import Relocator RelocatorSpec RelocatorFacts.

(** The effect of the three mutating calls on the paths. *)
Lemma shutil_rmtree_nodes (w w1 : FS) (p : str) (r : option exn) :
  shutil_rmtree w p = (w1, r) ->
  calls w1 = calls w ++ [Rmtree p] /\
  rename_fault w1 = rename_fault w /\ move_fault w1 = move_fault w /\
  (forall q, q <> p -> nodes w1 !! q = nodes w !! q) /\
  (r = None -> nodes w !! p = Some Dir /\ nodes w1 = delete p (nodes w)) /\
  (r <> None -> nodes w1 = nodes w).
Proof.
  unfold shutil_rmtree. intros H.
  destruct (rmtree_fault w p) as [e|].
  { injection H as <- <-. cbn. repeat split; congruence. }
  destruct (nodes w !! p) as [[|]|] eqn:E; injection H as <- <-; cbn;
    repeat split; try congruence.
  intros q Hq. apply lookup_delete_ne. congruence.
Qed.

Lemma os_rename_nodes (w w1 : FS) (s d : str) (r : option exn) :
  os_rename w s d = (w1, r) ->
  calls w1 = calls w ++ [Rename s d] /\
  move_fault w1 = move_fault w /\
  (r = None ->
   exists k, nodes w !! s = Some k /\
             nodes w1 = <[d := k]> (delete s (nodes w))) /\
  (r <> None -> nodes w1 = nodes w).
Proof.
  unfold os_rename. intros H.
  destruct (rename_fault w s d) as [e|].
  { injection H as <- <-. cbn. repeat split; congruence. }
  destruct (nodes w !! s) as [k|] eqn:E; injection H as <- <-; cbn;
    repeat split; try congruence.
  intros _. exists k. split; reflexivity.
Qed.

Lemma shutil_move_nodes (w w1 : FS) (s d : str) (r : option exn) :
  shutil_move w s d = (w1, r) ->
  calls w1 = calls w ++ [ShutilMove s d] /\
  (r = None ->
   exists k, nodes w !! s = Some k /\
             nodes w1 = <[d := k]> (delete s (nodes w))) /\
  (r <> None -> nodes w1 = nodes w).
Proof.
  unfold shutil_move. intros H.
  destruct (move_fault w s d) as [e|].
  { injection H as <- <-. cbn. repeat split; congruence. }
  destruct (nodes w !! s) as [k|] eqn:E; injection H as <- <-; cbn;
    repeat split; try congruence.
  intros _. exists k. split; reflexivity.
Qed.

(** What [rename_or_move] leaves behind: after a success the source has
    become the destination, otherwise the paths are as they were. *)
Lemma rename_or_move_nodes (w w' : FS) (s d : str) (replaced : bool)
    (res : outcome (bool * bool * bool)) :
  rename_or_move w s d replaced = (w', res) ->
  (exists k, res = Return (true, replaced, true) /\
             nodes w !! s = Some k /\
             nodes w' = <[d := k]> (delete s (nodes w))) \/
  (res <> Return (true, replaced, true) /\ nodes w' = nodes w /\
   (res = Return (false, replaced, false) \/ exists e, res = Raise e)).
Proof.
  unfold rename_or_move.
  destruct (os_rename w s d) as [w1 r1] eqn:E1.
  destruct (os_rename_nodes _ _ _ _ _ E1) as (_ & _ & Hok1 & Hko1).
  destruct r1 as [e|].
  2:{ intros H. injection H as <- <-. left.
      destruct (Hok1 eq_refl) as (k & Hk & Hn). eauto. }
  assert (nodes w1 = nodes w) as N1 by (apply Hko1; discriminate).
  destruct (is_OSError e).
  2:{ intros H. injection H as <- <-. right.
      split; [discriminate|]. split; [exact N1 | left; reflexivity]. }
  destruct (shutil_move w1 s d) as [w2 r2] eqn:E2.
  destruct (shutil_move_nodes _ _ _ _ _ E2) as (_ & Hok2 & Hko2).
  destruct r2 as [e'|].
  2:{ intros H. injection H as <- <-. left.
      destruct (Hok2 eq_refl) as (k & Hk & Hn). rewrite N1 in Hk, Hn. eauto. }
  assert (nodes w2 = nodes w) as N2
    by (rewrite <- N1; apply Hko2; discriminate).
  destruct (is_OSError e' || is_ShutilError e'); intros H;
    injection H as <- <-; right.
  - split; [discriminate|]. split; [exact N2 | left; reflexivity].
  - split; [discriminate|]. split; [exact N2 | right; eauto].
Qed.

(** After a successful [move_torrent_folder] the destination is a
    directory and the source, a different path, no longer exists. *)
Theorem success_moves_the_folder (w w' : FS) (source destination : str)
    (replaced new : bool) :
  move_torrent_folder w source destination
  = (w', Return (true, replaced, new)) ->
  source <> destination /\
  nodes w' !! destination = Some Dir /\
  nodes w' !! source = None.
Proof.
  unfold move_torrent_folder, os_path_exists, os_path_isdir.
  destruct (nodes w !! source) as [[|]|] eqn:Es; cbn; try discriminate.
  assert (forall w0 r0,
             nodes w0 !! source = Some Dir -> nodes w0 !! destination = None ->
             rename_or_move w0 source destination r0
             = (w', Return (true, replaced, new)) ->
             source <> destination /\
             nodes w' !! destination = Some Dir /\
             nodes w' !! source = None) as Core.
  { intros w0 r0 Hs Hd H.
    assert (source <> destination) as Hne by congruence.
    destruct (rename_or_move_nodes _ _ _ _ _ _ H)
      as [(k & _ & Hk & Hn) | (_ & _ & [Hr | [e Hr]])];
      [|discriminate Hr | discriminate Hr].
    rewrite Hn. split; [exact Hne|]. split.
    - rewrite lookup_insert_eq. congruence.
    - rewrite lookup_insert_ne by congruence. apply lookup_delete_eq. }
  destruct (nodes w !! destination) as [kd|] eqn:Ed.
  - destruct (shutil_rmtree w destination) as [w1 r] eqn:Er.
    destruct (shutil_rmtree_nodes _ _ _ _ Er) as (_ & _ & _ & Hfr & Hok & _).
    destruct r as [e|].
    { destruct (is_OSError e); discriminate. }
    destruct (Hok eq_refl) as [_ Hn]. intros H.
    destruct (decide (source = destination)) as [-> | Hne].
    + exfalso.
      destruct (rename_or_move_nodes _ _ _ _ _ _ H)
        as [(k & _ & Hk & _) | (_ & _ & [Hr | [e Hr]])];
        [|discriminate Hr | discriminate Hr].
      rewrite Hn, lookup_delete_eq in Hk. discriminate.
    + apply (Core w1 true); [| |exact H].
      * rewrite Hfr by exact Hne. exact Es.
      * rewrite Hn. apply lookup_delete_eq.
  - apply Core; assumption.
Qed.

(** [success_moves_the_folder] on the replacement of an old version
    through the copy fallback. *)
Lemma success_moves_the_folder_witness :
  let source := lit "/downloads/game" in
  let destination := lit "/library/Game" in
  let w := cross_device (<[source := Dir]> (<[destination := Dir]> ∅)) in
  snd (move_torrent_folder w source destination)
  = Return (true, true, true) /\
  nodes (fst (move_torrent_folder w source destination)) !! destination
  = Some Dir /\
  nodes (fst (move_torrent_folder w source destination)) !! source = None.
Proof.
  cbv zeta.
  set (source := lit "/downloads/game").
  set (destination := lit "/library/Game").
  set (w := cross_device (<[source := Dir]> (<[destination := Dir]> ∅))).
  split; [reflexivity|].
  apply (success_moves_the_folder w (fst (move_torrent_folder w source destination))
           source destination true true).
  reflexivity.
Defined.





(** A folder that already sits at its destination is deleted: with source
    and destination the same directory and no failure injected, the call
    removes it, finds nothing left to move, and returns
    [(False, True, False)]. *)
Theorem same_path_deletes_the_folder (w : FS) (path : str) :
  os_path_isdir w path = true ->
  rmtree_fault w path = None ->
  rename_fault w path path = None ->
  move_fault w path path = None ->
  snd (move_torrent_folder w path path) = Return (false, true, false) /\
  nodes (fst (move_torrent_folder w path path)) !! path = None.
Proof.
  intros Hd Hrm Hrn Hmv. unfold move_torrent_folder.
  rewrite (isdir_exists _ _ Hd), Hd. cbn [negb].
  unfold os_path_isdir in Hd.
  destruct (nodes w !! path) as [[|]|] eqn:E; try discriminate.
  unfold shutil_rmtree. rewrite Hrm, E.
  unfold rename_or_move, os_rename. cbn. rewrite Hrn, lookup_delete_eq. cbn.
  unfold shutil_move. cbn. rewrite Hmv, lookup_delete_eq. cbn.
  split; [reflexivity | apply lookup_delete_eq].
Qed.

(** [same_path_deletes_the_folder] on a torrent downloaded into the
    library under its final name. *)
Lemma same_path_deletes_the_folder_witness :
  let path := lit "/library/Game" in
  let w := healthy (<[path := Dir]> ∅) in
  os_path_isdir w path = true /\
  snd (move_torrent_folder w path path) = Return (false, true, false) /\
  nodes (fst (move_torrent_folder w path path)) !! path = None.
Proof.
  cbv zeta. split; [reflexivity|].
  apply (same_path_deletes_the_folder
           (healthy (<[lit "/library/Game" := Dir]> ∅)) (lit "/library/Game"));
    reflexivity.
Defined.

Lemma move_torrent_folder_calls (w : FS) (source destination : str) :
  exists removal moves,
    calls (fst (move_torrent_folder w source destination))
    = calls w ++ removal ++ moves /\
    (removal = [] \/
     (removal = [Rmtree destination] /\
      os_path_exists w destination = true)) /\
    (moves = [] \/ moves = [Rename source destination] \/
     moves = [Rename source destination; ShutilMove source destination]).
Proof.
  assert (forall w0 r0, exists moves,
             calls (fst (rename_or_move w0 source destination r0))
             = calls w0 ++ moves /\
             (moves = [Rename source destination] \/
              moves = [Rename source destination;
                       ShutilMove source destination])) as Core.
  { intros w0 r0. unfold rename_or_move.
    destruct (os_rename w0 source destination) as [w1 r1] eqn:E1.
    destruct (os_rename_nodes _ _ _ _ _ E1) as (C1 & _).
    destruct r1 as [e|]; [|exists [Rename source destination]; cbn; auto].
    destruct (is_OSError e);
      [|exists [Rename source destination]; cbn; auto].
    destruct (shutil_move w1 source destination) as [w2 r2] eqn:E2.
    destruct (shutil_move_nodes _ _ _ _ _ E2) as (C2 & _).
    exists [Rename source destination; ShutilMove source destination].
    split; [|auto].
    destruct r2 as [e'|]; [destruct (is_OSError e' || is_ShutilError e')|];
      cbn; rewrite C2, C1, <- app_assoc; reflexivity. }
  unfold move_torrent_folder.
  destruct (negb (os_path_exists w source)).
  { exists [], []. cbn. rewrite app_nil_r. auto. }
  destruct (negb (os_path_isdir w source)).
  { exists [], []. cbn. rewrite app_nil_r. auto. }
  destruct (os_path_exists w destination) eqn:Ed.
  - destruct (shutil_rmtree w destination) as [w1 r] eqn:Er.
    destruct (shutil_rmtree_nodes _ _ _ _ Er) as (C & _).
    destruct r as [e|].
    + exists [Rmtree destination], [].
      destruct (is_OSError e); cbn; rewrite C; auto.
    + destruct (Core w1 true) as (moves & Hm & Hcase).
      exists [Rmtree destination], moves.
      rewrite Hm, C, <- app_assoc. cbn. split; [reflexivity|].
      split; [right; auto | right; exact Hcase].
  - destruct (Core w false) as (moves & Hm & Hcase).
    exists [], moves. cbn. rewrite Hm. split; [reflexivity|].
    split; [left; reflexivity | right; exact Hcase].
Qed.

(** The mutating calls of one [move_torrent_folder], in order: at most one
    [shutil.rmtree], of the destination and only when it exists, then at
    most one [os.rename] and one [shutil.move] of the source to the
    destination.  Nothing else is ever removed or moved. *)
Theorem relocation_calls (w : FS) (source destination : str) :
  exists removal moves,
    calls (fst (move_torrent_folder w source destination))
    = calls w ++ removal ++ moves /\
    (removal = [] \/
     (removal = [Rmtree destination] /\
      os_path_exists w destination = true)) /\
    (moves = [] \/ moves = [Rename source destination] \/
     moves = [Rename source destination; ShutilMove source destination]).
Proof. apply move_torrent_folder_calls. Qed.

End RelocatorMore.

(** ** More on the torrent client *)

Module QbitMore.
Import Qbit QbitSpec MoreSpec.

Lemma count_app {A : Type} (test : A -> bool) (a b : list A) :
  count test (a ++ b) = count test a + count test b.
Proof. unfold count. rewrite List.filter_app, length_app. reflexivity. Qed.

(** The calls of one attempt. *)
Lemma delete_once_calls (q : QB) (h : str) :
  info_answer (fst (delete_once q h)) = info_answer q /\
  exists l,
    qb_calls (fst (delete_once q h)) = qb_calls q ++ l /\
    (l = [Connect] \/ l = [Connect; TorrentsDelete h false]) /\
    (snd (delete_once q h) = Return tt ->
     l = [Connect; TorrentsDelete h false]).
Proof.
  unfold delete_once, get_qbittorrent_client.
  destruct (login_answer q (n_login q)) as [e|].
  - destruct (is_APIConnectionError e); cbn; (split; [reflexivity|]);
      exists [Connect]; repeat split; auto; discriminate.
  - cbn. destruct (delete_answer q (n_delete q)); cbn;
      (split; [reflexivity|]);
      exists [Connect; TorrentsDelete h false];
      rewrite <- app_assoc; repeat split; auto.
Qed.

(** The calls of the whole retry loop. *)
Lemma delete_attempts_calls (attempts : list nat) (q : QB) (h : str) :
  info_answer (fst (delete_attempts attempts q h)) = info_answer q /\
  exists l,
    qb_calls (fst (delete_attempts attempts q h)) = qb_calls q ++ l /\
    Forall (deletion_call h) l /\
    count is_login l <= length attempts /\
    count is_delete_request l <= length attempts /\
    count is_sleep l
    <= count (fun attempt => attempt <? MAX_RETRIES - 1) attempts /\
    (snd (delete_attempts attempts q h) = true ->
     exists l', l = l' ++ [TorrentsDelete h false]).
Proof.
  revert q. induction attempts as [|attempt rest IH]; intros q.
  { cbn. split; [reflexivity|]. exists []. rewrite app_nil_r.
    repeat split; auto. discriminate. }
  cbn [delete_attempts].
  destruct (delete_once_calls q h) as (Hi & l1 & Hc & Hl1 & Hret).
  assert (Forall (deletion_call h) l1 /\ count is_login l1 = 1 /\
          count is_delete_request l1 <= 1 /\ count is_sleep l1 = 0) as (F1 & L1 & D1 & S1).
  { unfold count, deletion_call.
    destruct Hl1 as [-> | ->]; cbn;
      (split; [repeat (constructor; auto)|]); repeat split; lia. }
  destruct (delete_once q h) as [q1 res] eqn:E. cbn [fst snd] in *.
  destruct res as [[]|e].
  { split; [exact Hi|]. exists l1. cbn [fst snd length].
    repeat split; auto; try lia.
    intros _. rewrite (Hret eq_refl). exists [Connect]. reflexivity. }
  destruct (is_LoginFailed e).
  { split; [exact Hi|]. exists l1. cbn [fst snd length].
    repeat split; auto; try lia; try discriminate. }
  destruct (is_APIConnectionError e).
  2:{ split; [exact Hi|]. exists l1. cbn [fst snd length].
      repeat split; auto; try lia; try discriminate. }
  destruct (attempt <? MAX_RETRIES - 1) eqn:T.
  2:{ split; [exact Hi|]. exists l1. cbn [fst snd length].
      repeat split; auto; try lia; try discriminate. }
  destruct (IH (qb_logged q1 (Sleep RETRY_DELAY)))
    as (Hi' & l2 & Hc2 & F2 & L2 & D2 & S2 & R2).
  split; [rewrite Hi'; exact Hi|].
  exists (l1 ++ [Sleep RETRY_DELAY] ++ l2).
  split; [rewrite Hc2; cbn; rewrite Hc, <- !app_assoc; reflexivity|].
  split.
  { apply Forall_app. split; [exact F1|]. constructor; [|exact F2].
    unfold deletion_call. auto. }
  assert (count (fun a => a <? MAX_RETRIES - 1) (attempt :: rest)
          = S (count (fun a => a <? MAX_RETRIES - 1) rest)) as CT.
  { unfold count. cbn [List.filter]. rewrite T. reflexivity. }
  rewrite CT, !count_app. cbn [length].
  change (count is_login [Sleep RETRY_DELAY]) with 0.
  change (count is_delete_request [Sleep RETRY_DELAY]) with 0.
  change (count is_sleep [Sleep RETRY_DELAY]) with 1.
  repeat split; try lia.
  intros Ht. destruct (R2 Ht) as [l' ->].
  exists (l1 ++ [Sleep RETRY_DELAY] ++ l'). rewrite <- !app_assoc. reflexivity.
Qed.

(** Whatever the client answers, one [delete_torrent] makes at most three
    log-ins, three delete requests and two sleeps; every request is for
    the given hash with [delete_files=False], and every sleep lasts
    [RETRY_DELAY] seconds. *)
Theorem delete_torrent_is_bounded (q : QB) (h : str) :
  exists l,
    qb_calls (fst (delete_torrent q h)) = qb_calls q ++ l /\
    Forall (deletion_call h) l /\
    count is_login l <= 3 /\
    count is_delete_request l <= 3 /\
    count is_sleep l <= 2.
Proof.
  destruct (delete_attempts_calls (seq 0 MAX_RETRIES) q h)
    as (_ & l & A & B & C & D & S & _).
  exists l. repeat split; auto.
Qed.

(** [delete_torrent] returns [True] only when a delete request was
    accepted, and that request is the last call it makes. *)
Theorem delete_torrent_true_means_deleted (q : QB) (h : str) :
  snd (delete_torrent q h) = true ->
  exists l,
    qb_calls (fst (delete_torrent q h))
    = qb_calls q ++ l ++ [TorrentsDelete h false].
Proof.
  intros H.
  destruct (delete_attempts_calls (seq 0 MAX_RETRIES) q h)
    as (_ & l & A & _ & _ & _ & _ & R).
  destruct (R H) as [l' ->]. exists l'. exact A.
Qed.

(** [delete_torrent_true_means_deleted] on a client whose first delete
    request fails. *)
Lemma delete_torrent_true_means_deleted_witness :
  let q := fresh_client (always None) (fails_first APIConnectionError) in
  snd (delete_torrent q (lit "aa")) = true /\
  exists l,
    qb_calls (fst (delete_torrent q (lit "aa")))
    = qb_calls q ++ l ++ [TorrentsDelete (lit "aa") false].
Proof.
  cbv zeta. split; [reflexivity|].
  apply (delete_torrent_true_means_deleted
           (fresh_client (always None) (fails_first APIConnectionError))
           (lit "aa")).
  reflexivity.
Defined.

End QbitMore.

(** ** More on the orchestrator *)

Module OrchestratorMore.
Import Matcher Relocator RelocatorSpec RelocatorFacts RelocatorMore.
Import Qbit QbitSpec MoreSpec QbitMore.
Import Orchestrator OrchestratorSpec.

Lemma relocated_is_new (w w' : FS) (source destination : str)
    (replaced new : bool) :
  move_torrent_folder w source destination
  = (w', Return (true, replaced, new)) ->
  new = true.
Proof.
  unfold move_torrent_folder.
  destruct (negb (os_path_exists w source)); [discriminate|].
  destruct (negb (os_path_isdir w source)); [discriminate|].
  destruct (os_path_exists w destination).
  - destruct (shutil_rmtree w destination) as [w1 [e|]].
    + destruct (is_OSError e); discriminate.
    + apply rename_or_move_new.
  - apply rename_or_move_new.
Qed.


(** A replaced folder is a new folder: the loop never sets [replaced_any]
    without [new_any]. *)
Lemma process_torrent_flags (cfg : Config) (w : World) (fl fl' : Flags)
    (torrent : Torrent) :
  snd (process_torrent cfg w fl torrent) = Return fl' ->
  (replaced_any fl = true -> new_any fl = true) ->
  replaced_any fl' = true -> new_any fl' = true.
Proof.
  unfold process_torrent.
  destruct (eqb (state torrent) stoppedUP);
    [|cbn; intros H; injection H as <-; auto].
  destruct (new_folder (catalog w) (name torrent)) as [new_name|];
    [|cbn; intros H; injection H as <-; auto].
  destruct (move_torrent_folder _ _ _) as [f1 [[[success replaced] new]|e]] eqn:E;
    [|discriminate].
  destruct success; [|cbn; intros H; injection H as <-; auto].
  rewrite (relocated_is_new _ _ _ _ _ _ E).
  destruct (DELETE_AFTER_PROCESSING cfg);
    [destruct (delete_torrent _ _)|]; cbn; intros H; injection H as <-; auto.
Qed.


Lemma process_torrents_flags (cfg : Config) (torrents : list Torrent)
    (w : World) (fl fl' : Flags) :
  snd (process_torrents cfg w fl torrents) = Return fl' ->
  (replaced_any fl = true -> new_any fl = true) ->
  replaced_any fl' = true -> new_any fl' = true.
Proof.
  revert w fl. induction torrents as [|t rest IH]; intros w fl; cbn.
  - intros H. injection H as <-. auto.
  - pose proof (fun fl1 => process_torrent_flags cfg w fl fl1 t) as F.
    destruct (process_torrent cfg w fl t) as [w1 [fl1|e]]; [|discriminate].
    intros H Hfl. apply (IH w1 fl1 H). apply (F fl1 eq_refl Hfl).
Qed.

(** The part after the loop, for flags the loop can produce. *)
Lemma after_import_calls (cfg : Config) (w : World) (fl : Flags) :
  (replaced_any fl = true -> new_any fl = true) ->
  fs (after_import cfg w fl) = fs w /\
  qb (after_import cfg w fl) = qb w /\
  exists l,
    post_calls (after_import cfg w fl) = post_calls w ++ l /\
    (In ScanFileChanges l -> In ScanAfterImport l) /\
    (replaced_any fl = false -> new_any fl = false -> l = []).
Proof.
  intros H. unfold after_import, remove_extras.
  destruct fl as [[|] [|]]; cbn in H;
    try (specialize (H eq_refl); discriminate);
    destruct (ROMM_ENABLE cfg), (ROMM_SCAN_AFTER_IMPORT cfg),
      (REMOVE_EXTRAS cfg), (ROMM_SCAN_DANGEROUS_FILETYPES cfg),
      (remove_extras_answer w);
    cbn; (split; [reflexivity|]); (split; [reflexivity|]);
    eexists;
    (split;
     [repeat rewrite <- app_assoc;
      first [reflexivity | symmetry; apply app_nil_r]|]);
    cbn; (split; [|try discriminate; auto]);
    intuition discriminate.
Qed.


Lemma In_firstn_In {A : Type} (n : nat) (l : list A) (x : A) :
  In x (firstn n l) -> In x l.
Proof.
  revert l. induction n as [|n IH]; intros [|y l]; cbn; try tauto.
  intros [-> | H]; auto.
Qed.

Lemma length_firstn_le {A : Type} (n : nat) (l : list A) :
  length (firstn n l) <= n.
Proof.
  revert l. induction n as [|n IH]; intros [|y l]; cbn; try lia.
  specialize (IH l). lia.
Qed.

(** A torrent that is not in state [stoppedUP] is skipped. *)
Lemma process_torrents_idle (cfg : Config) (torrents : list Torrent)
    (w : World) (fl : Flags) :
  (forall t, In t torrents -> eqb (state t) stoppedUP = false) ->
  process_torrents cfg w fl torrents = (w, Return fl).
Proof.
  induction torrents as [|t rest IH]; intros H; cbn; [reflexivity|].
  unfold process_torrent. rewrite (H t (or_introl eq_refl)).
  apply IH. intros t' Ht'. apply H. right; exact Ht'.
Qed.

(** A cycle that finds no torrent in state [stoppedUP] moves nothing,
    deletes nothing and triggers neither clean-up nor scan: all it does is
    log in and, when that works, list the torrents. *)
Theorem idle_cycle_changes_nothing (cfg : Config) (w : World) :
  (forall t, In t (listed w) -> eqb (state t) stoppedUP = false) ->
  fs (torrent_manager cfg w) = fs w /\
  post_calls (torrent_manager cfg w) = post_calls w /\
  exists l,
    qb_calls (qb (torrent_manager cfg w)) = qb_calls (qb w) ++ l /\
    (l = [Connect] \/ l = [Connect; TorrentsInfo]).
Proof.
  unfold listed, torrent_manager, get_qbittorrent_client. intros H.
  destruct (login_answer (qb w) (n_login (qb w))) as [e|].
  - destruct (is_APIConnectionError e); cbn;
      repeat split; exists [Connect]; auto.
  - cbn [torrents_info]. cbn [info_answer next_login qb_logged].
    destruct (info_answer (qb w)) as [torrents|e].
    2:{ cbn. repeat split. exists [Connect; TorrentsInfo].
        rewrite <- app_assoc. auto. }
    rewrite process_torrents_idle.
    2:{ intros t Ht. apply H.
        destruct (0 <? MAX_TORRENTS_PER_RUN cfg)%Z; [|exact Ht].
        exact (In_firstn_In _ _ _ Ht). }
    destruct (after_import_calls cfg
                (with_qb w (qb_logged (next_login (qb_logged (qb w) Connect))
                              TorrentsInfo))
                {| replaced_any := false; new_any := false |})
      as (A & B & l & C & _ & D); [discriminate|].
    rewrite A, B, C, (D eq_refl eq_refl), app_nil_r. cbn.
    repeat split. exists [Connect; TorrentsInfo].
    rewrite <- app_assoc. auto.
Qed.

(** [idle_cycle_changes_nothing] on a client that lists one torrent that
    is still seeding. *)
Lemma idle_cycle_changes_nothing_witness :
  let seeding := {| name := lit "game_windows_gog_(1)"; hash := lit "aa";
                    content_path := lit "/downloads/game";
                    state := lit "uploading" |} in
  let w0 := world_of (<[lit "/downloads/game" := Dir]> ∅) [] in
  let w := with_qb w0
             {| login_answer := always None; delete_answer := always None;
                info_answer := Return [seeding]; n_login := 0;
                n_delete := 0; qb_calls := [] |} in
  listed w = [seeding] /\
  fs (torrent_manager (deleting (lit "/library")) w) = fs w /\
  qb_calls (qb (torrent_manager (deleting (lit "/library")) w))
  = [Connect; TorrentsInfo].
Proof.
  cbv zeta. split; [reflexivity|].
  match goal with
  | |- fs (torrent_manager ?c ?w) = _ /\ _ =>
      destruct (idle_cycle_changes_nothing c w) as (A & _ & _)
  end.
  - intros t [<- | []]. reflexivity.
  - split; [exact A | reflexivity].
Defined.

(** The client calls of the body of the loop. *)
Lemma process_torrent_qb (cfg : Config) (w : World) (fl : Flags)
    (torrent : Torrent) :
  exists l,
    qb_calls (qb (fst (process_torrent cfg w fl torrent)))
    = qb_calls (qb w) ++ l /\
    forall h b, In (TorrentsDelete h b) l ->
                b = false /\ h = hash torrent /\
                state torrent = stoppedUP.
Proof.
  assert (exists l : list qb_call,
             qb_calls (qb w) = qb_calls (qb w) ++ l /\
             forall h b, In (TorrentsDelete h b) l ->
                         b = false /\ h = hash torrent /\
                         state torrent = stoppedUP) as Nothing.
  { exists []. rewrite app_nil_r. split; [reflexivity | intros h b []]. }
  unfold process_torrent.
  destruct (eqb (state torrent) stoppedUP) eqn:St; [|exact Nothing].
  apply PyStrFacts.eqb_eq in St.
  destruct (new_folder (catalog w) (name torrent)) as [new_name|];
    [|exact Nothing].
  destruct (move_torrent_folder _ _ _) as [f1 [[[[|] replaced] new]|e]];
    [|exact Nothing|exact Nothing].
  destruct (DELETE_AFTER_PROCESSING cfg); [|exact Nothing].
  pose proof (delete_attempts_calls (seq 0 MAX_RETRIES) (qb w) (hash torrent))
    as (_ & l & Hc & F & _).
  unfold delete_torrent. cbn [qb with_fs].
  destruct (delete_attempts (seq 0 MAX_RETRIES) (qb w) (hash torrent))
    as [q1 b0].
  cbn [fst qb with_qb with_fs] in *. exists l. split; [exact Hc|].
  intros h b Hin. rewrite List.Forall_forall in F.
  destruct (F _ Hin) as [D | [D | D]]; try discriminate.
  injection D as -> ->. auto.
Qed.

Lemma process_torrents_qb (cfg : Config) (torrents : list Torrent)
    (w : World) (fl : Flags) :
  exists l,
    qb_calls (qb (fst (process_torrents cfg w fl torrents)))
    = qb_calls (qb w) ++ l /\
    forall h b, In (TorrentsDelete h b) l ->
                b = false /\
                exists t, In t torrents /\ hash t = h /\ state t = stoppedUP.
Proof.
  revert w fl. induction torrents as [|t rest IH]; intros w fl; cbn.
  { exists []. rewrite app_nil_r. split; [reflexivity | intros h b []]. }
  destruct (process_torrent_qb cfg w fl t) as (l1 & C1 & D1).
  destruct (process_torrent cfg w fl t) as [w1 [fl1|e]]; cbn in C1.
  - destruct (IH w1 fl1) as (l2 & C2 & D2).
    exists (l1 ++ l2). rewrite C2, C1, <- app_assoc. split; [reflexivity|].
    intros h b Hin. apply in_app_or in Hin. destruct Hin as [Hin | Hin].
    + destruct (D1 h b Hin) as (A & B & C). split; [exact A|].
      exists t. auto.
    + destruct (D2 h b Hin) as (A & t' & B & C). split; [exact A|].
      exists t'. tauto.
  - exists l1. cbn. split; [exact C1|].
    intros h b Hin. destruct (D1 h b Hin) as (A & B & C).
    split; [exact A|]. exists t. auto.
Qed.

(** Every delete request of a cycle is for the hash of a listed torrent
    in state [stoppedUP], and asks the client to keep the files. *)
Theorem only_stopped_torrents_are_deleted (cfg : Config) (w : World) :
  exists l,
    qb_calls (qb (torrent_manager cfg w)) = qb_calls (qb w) ++ l /\
    forall h b, In (TorrentsDelete h b) l ->
                b = false /\
                exists t, In t (listed w) /\ hash t = h /\
                          state t = stoppedUP.
Proof.
  unfold listed, torrent_manager, get_qbittorrent_client.
  destruct (login_answer (qb w) (n_login (qb w))) as [e|].
  { destruct (is_APIConnectionError e); cbn; exists [Connect];
      (split; [reflexivity|]); intros h b [D | []]; discriminate. }
  cbn [torrents_info]. cbn [info_answer next_login qb_logged].
  destruct (info_answer (qb w)) as [torrents|e].
  2:{ cbn. exists [Connect; TorrentsInfo]. rewrite <- app_assoc.
      split; [reflexivity|]. intros h b [D | [D | []]]; discriminate. }
  set (completed := if (0 <? MAX_TORRENTS_PER_RUN cfg)%Z then _ else _).
  assert (forall t, In t completed -> In t torrents) as Sub.
  { subst completed. intros t.
    destruct (0 <? MAX_TORRENTS_PER_RUN cfg)%Z; [apply In_firstn_In | auto]. }
  set (w0 := with_qb w _).
  set (init := {| replaced_any := false; new_any := false |}).
  destruct (process_torrents_qb cfg completed w0 init) as (l & C & D).
  pose proof (process_torrents_flags cfg completed w0 init) as F.
  assert (exists l',
             qb_calls (qb (fst (process_torrents cfg w0 init completed)))
             = qb_calls (qb w) ++ l' /\
             forall h b, In (TorrentsDelete h b) l' ->
                         b = false /\
                         exists t, In t torrents /\ hash t = h /\
                                   state t = stoppedUP) as Loop.
  { exists ([Connect; TorrentsInfo] ++ l). rewrite C. subst w0. cbn.
    rewrite <- !app_assoc. split; [reflexivity|].
    intros h b [X | [X | Hin]]; try discriminate.
    destruct (D h b Hin) as (A & t & B1 & B2). split; [exact A|].
    exists t. split; [apply Sub, B1 | exact B2]. }
  destruct (process_torrents cfg w0 init completed) as [w1 [fl|e]];
    cbn in Loop, F; [|exact Loop].
  destruct (after_import_calls cfg w1 fl) as (_ & B & _).
  { apply (F fl eq_refl). discriminate. }
  rewrite B. exact Loop.
Qed.

(** The mutating filesystem calls of the body of the loop. *)
Lemma process_torrent_fs (cfg : Config) (w : World) (fl : Flags)
    (torrent : Torrent) :
  count is_rename (calls (fs (fst (process_torrent cfg w fl torrent))))
  <= count is_rename (calls (fs w)) + 1 /\
  count is_rmtree (calls (fs (fst (process_torrent cfg w fl torrent))))
  <= count is_rmtree (calls (fs w)) + 1.
Proof.
  unfold process_torrent.
  destruct (eqb (state torrent) stoppedUP); [|cbn; lia].
  destruct (new_folder (catalog w) (name torrent)) as [new_name|];
    [|cbn; lia].
  destruct (move_torrent_folder_calls (fs w) (content_path torrent)
              (os_path_join (GAME_PATH cfg) new_name))
    as (removal & moves & C & R & M).
  assert (count is_rename (calls (fs w) ++ removal ++ moves)
          <= count is_rename (calls (fs w)) + 1 /\
          count is_rmtree (calls (fs w) ++ removal ++ moves)
          <= count is_rmtree (calls (fs w)) + 1) as Bound.
  { rewrite !count_app.
    destruct R as [-> | [-> _]]; destruct M as [-> | [-> | ->]];
      cbn; lia. }
  rewrite <- C in Bound.
  destruct (move_torrent_folder _ _ _) as [f1 [[[[|] replaced] new]|e]];
    cbn [fst] in Bound; try exact Bound.
  destruct (DELETE_AFTER_PROCESSING cfg); [|exact Bound].
  destruct (delete_torrent _ _). exact Bound.
Qed.

Lemma process_torrents_fs (cfg : Config) (torrents : list Torrent)
    (w : World) (fl : Flags) :
  count is_rename (calls (fs (fst (process_torrents cfg w fl torrents))))
  <= count is_rename (calls (fs w)) + length torrents /\
  count is_rmtree (calls (fs (fst (process_torrents cfg w fl torrents))))
  <= count is_rmtree (calls (fs w)) + length torrents.
Proof.
  revert w fl. induction torrents as [|t rest IH]; intros w fl; cbn;
    [lia|].
  pose proof (process_torrent_fs cfg w fl t) as P.
  destruct (process_torrent cfg w fl t) as [w1 [fl1|e]]; cbn in P.
  - specialize (IH w1 fl1). lia.
  - cbn. lia.
Qed.

(** With [MAX_TORRENTS_PER_RUN] positive, a cycle renames at most that
    many folders and removes at most that many old versions. *)
Theorem cap_limits_relocations (cfg : Config) (w : World) :
  (0 < MAX_TORRENTS_PER_RUN cfg)%Z ->
  count is_rename (calls (fs (torrent_manager cfg w)))
  <= count is_rename (calls (fs w)) + Z.to_nat (MAX_TORRENTS_PER_RUN cfg) /\
  count is_rmtree (calls (fs (torrent_manager cfg w)))
  <= count is_rmtree (calls (fs w)) + Z.to_nat (MAX_TORRENTS_PER_RUN cfg).
Proof.
  intros Hcap. unfold torrent_manager.
  destruct (get_qbittorrent_client (qb w)) as [q1 [client|e]]; [|cbn; lia].
  destruct (torrents_info q1 client) as [q2 [torrents|e]]; [|cbn; lia].
  apply Z.ltb_lt in Hcap. rewrite Hcap.
  set (completed := firstn _ torrents).
  set (init := {| replaced_any := false; new_any := false |}).
  pose proof (process_torrents_fs cfg completed (with_qb w q2) init) as P.
  pose proof (process_torrents_flags cfg completed (with_qb w q2) init) as F.
  pose proof (length_firstn_le (Z.to_nat (MAX_TORRENTS_PER_RUN cfg)) torrents)
    as L.
  fold completed in L.
  destruct (process_torrents cfg (with_qb w q2) init completed)
    as [w1 [fl|e]]; cbn in P, F; cbn [fs with_qb] in P.
  - destruct (after_import_calls cfg w1 fl) as (A & _).
    { apply (F fl eq_refl). discriminate. }
    rewrite A. lia.
  - lia.
Qed.

(** [cap_limits_relocations] with a cap of one and two stopped torrents. *)
Lemma cap_limits_relocations_witness :
  let one := {| name := lit "one"; hash := lit "aa";
                content_path := lit "/downloads/one";
                state := lit "stoppedUP" |} in
  let two := {| name := lit "two"; hash := lit "bb";
                content_path := lit "/downloads/two";
                state := lit "stoppedUP" |} in
  let w0 := world_of (<[lit "/downloads/one" := Dir]>
                        (<[lit "/downloads/two" := Dir]> ∅)) [] in
  let w := with_qb w0
             {| login_answer := always None; delete_answer := always None;
                info_answer := Return [one; two]; n_login := 0;
                n_delete := 0; qb_calls := [] |} in
  let cfg := {| GAME_PATH := lit "/library"; MAX_TORRENTS_PER_RUN := 1;
                DELETE_AFTER_PROCESSING := true; ROMM_ENABLE := false;
                ROMM_SCAN_AFTER_IMPORT := false; REMOVE_EXTRAS := false;
                ROMM_SCAN_DANGEROUS_FILETYPES := false |} in
  calls (fs (torrent_manager cfg w))
  = [Rename (lit "/downloads/one") (lit "/library/one")] /\
  count is_rename (calls (fs (torrent_manager cfg w))) <= 0 + 1.
Proof.
  cbv zeta. split; [reflexivity|].
  match goal with
  | |- count is_rename (calls (fs (torrent_manager ?c ?w))) <= _ =>
      exact (proj1 (cap_limits_relocations c w eq_refl))
  end.
Defined.



End OrchestratorMore.

(** ** More on the scan session *)

Module ScanMore.
Import Scan ScanSpec ScanMoreSpec MoreSpec QbitMore ScanFacts.

(** The wait is bounded: as soon as the clock read at the top of the loop
    is more than [timeout] seconds past the start, the loop ends, whatever
    the server goes on sending. *)
Theorem wait_ends_at_the_ceiling (start : Q) (turns : list turn)
    (log : list ws_call) :
  (exists t, In t turns /\ (inject_Z timeout < clock t - start)%Q) ->
  exists how log', wait_loop start turns log = Some (how, log').
Proof.
  intros (t & Hin & Hlt). revert log.
  induction turns as [|t0 rest IH]; intros log; [destruct Hin|].
  cbn [wait_loop].
  destruct (Qle_bool (clock t0 - start) (inject_Z timeout)) eqn:C; cbn [negb];
    [|eauto].
  assert (In t rest) as Hrest.
  { destruct Hin as [-> | H]; [|exact H]. exfalso.
    apply Qle_bool_iff in C. apply (Qlt_not_le _ _ Hlt C). }
  destruct (received t0) as [result|e]; [|eauto].
  destruct (contains result scan_done); [eauto|].
  destruct (contains result scan_stop); [eauto|].
  destruct (eqb result (lit "2")); [|apply IH; exact Hrest].
  destruct (pong_answer t0); [eauto | apply IH; exact Hrest].
Qed.

(** [wait_ends_at_the_ceiling] on a server that only sends pings. *)
Lemma wait_ends_at_the_ceiling_witness :
  let turns := [at_time 25 ping; at_time 3600 ping; at_time 7201 ping;
                at_time 7226 ping] in
  (inject_Z timeout < clock (at_time 7201 ping) - inject_Z 0)%Q /\
  exists how log', wait_loop (inject_Z 0) turns [] = Some (how, log').
Proof.
  cbv zeta. split; [reflexivity|].
  apply (wait_ends_at_the_ceiling (inject_Z 0)
           [at_time 25 ping; at_time 3600 ping; at_time 7201 ping;
            at_time 7226 ping] []).
  exists (at_time 7201 ping). split; [cbn; auto | reflexivity].
Defined.

(** While it waits, the session only receives and answers pings: every
    call the loop adds to the socket is a [recv] or the send of the pong
    frame [3], and it sends no more pongs than it received frames. *)
Theorem wait_only_receives_and_pongs (start : Q) (turns : list turn)
    (log log' : list ws_call) (how : loop_exit) :
  wait_loop start turns log = Some (how, log') ->
  exists l,
    log' = log ++ l /\ Forall wait_call l /\
    count is_send l <= count is_recv l.
Proof.
  revert log. induction turns as [|t rest IH]; intros log; [discriminate|].
  cbn [wait_loop].
  assert (exists l, log = log ++ l /\ Forall wait_call l /\
                    count is_send l <= count is_recv l) as Zero.
  { exists []. rewrite app_nil_r. split; [reflexivity|].
    split; [constructor | unfold count; cbn; lia]. }
  assert (exists l, log ++ [Recv] = log ++ l /\ Forall wait_call l /\
                    count is_send l <= count is_recv l) as One.
  { exists [Recv]. split; [reflexivity|]. split; [|unfold count; cbn; lia].
    constructor; [left; reflexivity | constructor]. }
  assert (exists l, (log ++ [Recv]) ++ [Send (lit "3")] = log ++ l /\
                    Forall wait_call l /\
                    count is_send l <= count is_recv l) as Two.
  { exists [Recv; Send (lit "3")]. rewrite <- app_assoc.
    split; [reflexivity|]. split; [|unfold count; cbn; lia].
    constructor; [left; reflexivity|].
    constructor; [right; reflexivity | constructor]. }
  destruct (negb (Qle_bool (clock t - start) (inject_Z timeout))).
  { intros H. injection H as _ <-. exact Zero. }
  destruct (received t) as [result|e].
  2:{ intros H. injection H as _ <-. exact One. }
  destruct (contains result scan_done).
  { intros H. injection H as _ <-. exact One. }
  destruct (contains result scan_stop).
  { intros H. injection H as _ <-. exact One. }
  assert (forall mid,
             (exists l0, mid = log ++ l0 /\ Forall wait_call l0 /\
                         count is_send l0 <= count is_recv l0) ->
             wait_loop start rest mid = Some (how, log') ->
             exists l, log' = log ++ l /\ Forall wait_call l /\
                       count is_send l <= count is_recv l) as Next.
  { intros mid (l0 & -> & F0 & C0) H.
    destruct (IH _ H) as (l1 & -> & F1 & C1).
    exists (l0 ++ l1). rewrite <- app_assoc. split; [reflexivity|].
    split; [apply Forall_app; auto|]. rewrite !count_app. lia. }
  destruct (eqb result (lit "2")).
  - destruct (pong_answer t).
    + intros H. injection H as _ <-. exact Two.
    + apply Next. exact Two.
  - apply Next. exact One.
Qed.

(** [wait_only_receives_and_pongs] on two pings followed by the
    completion frame. *)
Lemma wait_only_receives_and_pongs_witness :
  let turns := [at_time 25 ping; at_time 50 ping;
                at_time 90 (Frame (lit "42[" ++ scan_done ++ lit "]"))] in
  wait_loop (inject_Z 0) turns []
  = Some (GotDone, [Recv; Send (lit "3"); Recv; Send (lit "3"); Recv]) /\
  exists l,
    [Recv; Send (lit "3"); Recv; Send (lit "3"); Recv] = [] ++ l /\
    Forall wait_call l /\ count is_send l <= count is_recv l.
Proof.
  cbv zeta. split; [reflexivity|].
  apply (wait_only_receives_and_pongs (inject_Z 0)
           [at_time 25 ping; at_time 50 ping;
            at_time 90 (Frame (lit "42[" ++ scan_done ++ lit "]"))]
           [] _ GotDone).
  reflexivity.
Defined.

(** An instance of [closed_after_wait]: a session that ends by a receive
    timeout still closes the socket. *)
Lemma closed_after_wait_witness :
  let s := {| returned := true; ended := Some ReceiveTimeout;
              ws_calls := [CreateConnection timeout; Recv; Send (lit "40");
                           Recv; Send (lit "42[]"); Recv; Close] |} in
  scan_library (fun _ => lit "[]")
    (server [at_time 60 (RecvRaise WebSocketTimeoutException)])
    [1%Z] (lit "hashes") None = Some s /\
  exists log, ws_calls s = log ++ [Close].
Proof.
  cbv zeta. split; [reflexivity|].
  apply (closed_after_wait (fun _ => lit "[]")
           (server [at_time 60 (RecvRaise WebSocketTimeoutException)])
           [1%Z] (lit "hashes") None _ ReceiveTimeout);
    reflexivity.
Defined.


End ScanMore.

(** ** The sweeps against the ROMM API *)

Module RommLibraryCleanupFacts.
Import Sweeps SweepsSpec SweepsFacts RommLibraryCleanup CleanupSpec.

(** When the configured platform cannot be resolved, [find_empty] and
    [find_fragmented] go on with the inventory of every platform and
    delete what they find there, while [find_missing_exe] and
    [find_dangerous_filetypes] stop after the platform request. *)
Theorem unresolved_platform_widens_size_sweeps (r : Romm) :
  snd (get_platform_by_slug r) = None ->
  api_calls (find_empty true r)
  = api_calls r ++ [GetPlatforms; FilterGames None]
    ++ deletion (Sweeps.find_empty (games_answer r None)) /\
  api_calls (find_fragmented true r)
  = api_calls r ++ [GetPlatforms; FilterGames None]
    ++ deletion (Sweeps.find_fragmented (games_answer r None)) /\
  api_calls (find_missing_exe r) = api_calls r ++ [GetPlatforms] /\
  api_calls (fst (find_dangerous_filetypes r))
  = api_calls r ++ [GetPlatforms].
Proof.
  unfold find_empty, find_fragmented, find_missing_exe,
    find_dangerous_filetypes, sweep_platform, filter_games, delete_found,
    Sweeps.find_empty, Sweeps.find_fragmented, get_platform_by_slug.
  cbn [snd]. intros ->. cbn [games_answer requested].
  repeat split; try reflexivity.
  - destruct (sweep is_empty_rom (games_answer r None)); cbn;
      rewrite <- !app_assoc; reflexivity.
  - destruct (sweep is_fragmented_rom (games_answer r None)); cbn;
      rewrite <- !app_assoc; reflexivity.
Qed.

(** [unresolved_platform_widens_size_sweeps] on a server whose platform
    list cannot be fetched and which holds an empty game on some
    platform. *)
Lemma unresolved_platform_widens_size_sweeps_witness :
  let r := {| slug := lit "win"; platforms_answer := None;
              games_answer := fun _ => DataList [game 7 0; game 8 5000];
              api_calls := [] |} in
  snd (get_platform_by_slug r) = None /\
  api_calls (find_empty true r)
  = [GetPlatforms; FilterGames None; DeleteGames [7%Z]].
Proof.
  cbv zeta. split; [reflexivity|].
  match goal with
  | |- api_calls (find_empty true ?r) = _ =>
      rewrite (proj1 (unresolved_platform_widens_size_sweeps r eq_refl))
  end.
  reflexivity.
Defined.

(** [find_dangerous_filetypes] only reads: whatever the inventory holds,
    it makes at most the platform request and the inventory request, and
    never a delete request. *)
Theorem dangerous_sweep_never_deletes (r : Romm) :
  exists l,
    api_calls (fst (find_dangerous_filetypes r)) = api_calls r ++ l /\
    (l = [GetPlatforms] \/
     exists platform, l = [GetPlatforms; FilterGames (Some platform)]) /\
    forall ids, ~ In (DeleteGames ids) l.
Proof.
  unfold find_dangerous_filetypes, get_platform_by_slug, filter_games.
  destruct (match platforms_answer r with
            | Some platforms => first_platform (slug r) platforms
            | None => None
            end) as [platform|].
  - exists [GetPlatforms; FilterGames (Some platform)].
    split; [|split; [right; eauto|]].
    + destruct (items_of _); cbn; rewrite <- app_assoc; reflexivity.
    + intros ids [H | [H | []]]; discriminate.
  - exists [GetPlatforms]. cbn. split; [reflexivity|]. split; [auto|].
    intros ids [H | []]; discriminate.
Qed.

Lemma is_exe_present_false (fs : list GameFile) :
  is_exe_present fs = false <->
  forall f, In f fs -> endswith (file_name f) (lit ".exe") = false.
Proof.
  induction fs as [|f fs IH]; cbn [is_exe_present].
  - split; [intros _ f [] | reflexivity].
  - destruct (endswith (file_name f) (lit ".exe")) eqn:E.
    + split; [discriminate|]. intros H.
      rewrite <- (H f (or_introl eq_refl)). symmetry; exact E.
    + rewrite IH. split.
      * intros H g [<- | Hg]; auto.
      * intros H g Hg. apply H. right; exact Hg.
Qed.

(** [find_missing_exe] deletes exactly the entries none of whose file
    names ends in [.exe] - an entry without files among them: each such
    entry of the inventory is in the delete request, and every id in a
    delete request belongs to such an entry. *)
Theorem missing_exe_deletes_exactly (r : Romm) (platform : Z)
    (items : list GameEntry) :
  snd (get_platform_by_slug r) = Some platform ->
  games_answer r (Some platform) = DataList items ->
  (forall item, In item items -> lacks_exe item ->
     exists ids,
       api_calls (find_missing_exe r)
       = api_calls r ++ [GetPlatforms; FilterGames (Some platform);
                         DeleteGames ids] /\
       In (id item) ids) /\
  (forall ids i,
     In (DeleteGames ids) (api_calls (find_missing_exe r)) ->
     ~ In (DeleteGames ids) (api_calls r) ->
     In i ids ->
     exists item, In item items /\ id item = i /\ lacks_exe item).
Proof.
  unfold find_missing_exe, get_platform_by_slug, filter_games, delete_found.
  cbn [snd]. intros -> Hg. cbn [games_answer requested]. rewrite Hg.
  split.
  - intros item Hin Hno.
    assert (In item (found is_missing_exe items)) as F.
    { apply found_In. split; [exact Hin|].
      unfold is_missing_exe. apply negb_true_iff.
      exact (proj2 (is_exe_present_false _) Hno). }
    destruct (sweep_deletes_found _ _ _ F) as (ids & -> & Hid).
    exists ids. cbn. rewrite <- !app_assoc. split; [reflexivity | exact Hid].
  - intros ids i Hcall Hold Hi.
    destruct (sweep is_missing_exe (DataList items)) as [ids0|] eqn:S.
    + cbn in Hcall. rewrite !in_app_iff in Hcall. cbn in Hcall.
      destruct Hcall as [[[H | [H | []]] | [H | []]] | [H | []]];
        try contradiction; try discriminate.
      injection H as ->.
      unfold sweep, items_of in S. destruct items as [|x xs]; [discriminate|].
      destruct (List.map id (found is_missing_exe (x :: xs))) as [|j js] eqn:M;
        [discriminate|]. injection S as <-. rewrite <- M in Hi.
      apply in_map_iff in Hi. destruct Hi as (item & Hid & Hf).
      apply found_In in Hf. destruct Hf as [Hin Ht].
      exists item. split; [exact Hin|]. split; [exact Hid|].
      unfold is_missing_exe in Ht. apply negb_true_iff in Ht.
      exact (proj1 (is_exe_present_false _) Ht).
    + cbn in Hcall. rewrite !in_app_iff in Hcall. cbn in Hcall.
      destruct Hcall as [[H | [H | []]] | [H | []]];
        try contradiction; discriminate.
Qed.

(** [missing_exe_deletes_exactly] on an inventory with a game without
    files, one whose installer has an upper-case extension, and one with
    an executable. *)
Lemma missing_exe_deletes_exactly_witness :
  let bare := game 1 900 in
  let upper := {| id := 2; name := lit "upper"; fs_size_bytes := 900;
                  files := [{| file_name := lit "SETUP.EXE" |}] |} in
  let fine := {| id := 3; name := lit "fine"; fs_size_bytes := 900;
                 files := [{| file_name := lit "readme.txt" |};
                           {| file_name := lit "setup.exe" |}] |} in
  let r := {| slug := lit "win";
              platforms_answer :=
                Some [{| platform_id := Some 4%Z; fs_slug := Some (lit "win") |}];
              games_answer := fun _ => DataList [bare; upper; fine];
              api_calls := [] |} in
  api_calls (find_missing_exe r)
  = [GetPlatforms; FilterGames (Some 4%Z); DeleteGames [1%Z; 2%Z]] /\
  exists ids,
    api_calls (find_missing_exe r)
    = api_calls r ++ [GetPlatforms; FilterGames (Some 4%Z); DeleteGames ids] /\
    In (id bare) ids.
Proof.
  cbv zeta. split; [reflexivity|].
  match goal with
  | |- exists ids, api_calls (find_missing_exe ?r) = _ /\ In (id ?b) ids =>
      apply (proj1 (missing_exe_deletes_exactly r 4%Z
                      (match games_answer r None with
                       | DataList l => l
                       | _ => []
                       end) eq_refl eq_refl) b)
  end.
  - left; reflexivity.
  - intros f [].
Defined.

End RommLibraryCleanupFacts.

(** ** Configuration lists and the library clean-up *)

Module CleanupFacts.
Import PyStrFacts ConfigParse LibraryCleanup CleanupSpec.

(** *** [split] and the list setting *)

Lemma split_on_nonempty (c : N) (s : str) : split_on c s <> [].
Proof.
  destruct s as [|x s]; cbn; [discriminate|].
  destruct (N.eqb x c); [discriminate|].
  destruct (split_on c s); discriminate.
Qed.

(** No piece of a split contains the separator. *)
Lemma split_on_pieces (c : N) (s piece : str) :
  In piece (split_on c s) -> ~ In c piece.
Proof.
  revert piece. induction s as [|x s IH]; intros piece; cbn.
  - intros [<- | []] [].
  - destruct (N.eqb_spec x c) as [-> | Hne].
    + intros [<- | H]; [intros [] | apply IH, H].
    + destruct (split_on c s) as [|item items] eqn:E.
      * intros [<- | []] [H | []]. congruence.
      * intros [<- | H].
        -- intros [H | H]; [congruence|].
           apply (IH item); [left; reflexivity | exact H].
        -- apply IH. right; exact H.
Qed.

Lemma split_on_clean (c : N) (x : str) :
  ~ In c x -> split_on c x = [x].
Proof.
  induction x as [|y x IH]; cbn; [reflexivity|]. intros H.
  destruct (N.eqb_spec y c) as [-> | Hne]; [tauto|].
  rewrite IH by tauto. reflexivity.
Qed.

Lemma split_on_app (c : N) (x rest : str) :
  ~ In c x -> split_on c (x ++ c :: rest) = x :: split_on c rest.
Proof.
  induction x as [|y x IH]; cbn [app]; intros H.
  - cbn. rewrite N.eqb_refl. reflexivity.
  - cbn [split_on]. destruct (N.eqb_spec y c) as [-> | Hne].
    + exfalso. apply H. left; reflexivity.
    + rewrite IH by (intros H'; apply H; right; exact H'). reflexivity.
Qed.

Lemma split_on_join (c : N) (items : list str) :
  items <> [] ->
  (forall x, In x items -> ~ In c x) ->
  split_on c (join_with c items) = items.
Proof.
  induction items as [|x [|y rest] IH]; intros Hne H; [contradiction| |].
  - cbn. apply split_on_clean, H. left; reflexivity.
  - change (join_with c (x :: y :: rest))
      with (x ++ c :: join_with c (y :: rest)).
    rewrite split_on_app by (apply H; left; reflexivity).
    rewrite IH; [reflexivity | discriminate|].
    intros z Hz. apply H. right; exact Hz.
Qed.

Lemma stripped_items_In (items : list str) (item : str) :
  In item (stripped_items items) ->
  item <> [] /\ exists raw, In raw items /\ item = strip raw.
Proof.
  induction items as [|x items IH]; cbn; [intros []|].
  destruct (is_empty (strip x)) eqn:E.
  - intros H. destruct (IH H) as (A & raw & B & C). eauto.
  - intros [<- | H].
    + split; [apply is_empty_false, E | eauto].
    + destruct (IH H) as (A & raw & B & C). eauto.
Qed.

(** Every item of a parsed list setting is non-empty, trimmed and free of
    commas; in particular no pattern is the empty string. *)
Theorem parse_list_items_are_clean (value item : str) :
  In item (parse_list value) -> clean_item item.
Proof.
  unfold parse_list, clean_item. intros H.
  destruct (stripped_items_In _ _ H) as (Hne & raw & Hraw & ->).
  split; [exact Hne|]. split; [apply strip_strip|].
  intros Hc. apply strip_In in Hc.
  exact (split_on_pieces _ _ _ Hraw Hc).
Qed.

(** [parse_list_items_are_clean] on a setting with blanks and empty
    places. *)
Lemma parse_list_items_are_clean_witness :
  parse_list (lit " ost, ,flac ,,mp3 ") = [lit "ost"; lit "flac"; lit "mp3"] /\
  clean_item (lit "flac").
Proof.
  split; [reflexivity|].
  apply (parse_list_items_are_clean (lit " ost, ,flac ,,mp3 ") (lit "flac")).
  right; left; reflexivity.
Defined.

Lemma stripped_items_clean (items : list str) :
  (forall x, In x items -> clean_item x) -> stripped_items items = items.
Proof.
  induction items as [|x items IH]; intros H; cbn; [reflexivity|].
  destruct (H x (or_introl eq_refl)) as (Hne & Hs & _).
  rewrite Hs. replace (is_empty x) with false
    by (symmetry; apply is_empty_false, Hne).
  rewrite IH; [reflexivity|]. intros y Hy. apply H. right; exact Hy.
Qed.

(** Writing clean items separated by commas and parsing the result gives
    the items back. *)
Theorem parse_list_round_trip (items : list str) :
  (forall x, In x items -> clean_item x) ->
  parse_list (join_with comma items) = items.
Proof.
  intros H. unfold parse_list. destruct items as [|x rest]; [reflexivity|].
  rewrite split_on_join; [apply stripped_items_clean, H | discriminate|].
  intros y Hy. apply (H y Hy).
Qed.

(** [parse_list_round_trip] on three patterns. *)
Lemma parse_list_round_trip_witness :
  join_with comma [lit "soundtrack"; lit "ost"; lit "art book"]
  = lit "soundtrack,ost,art book" /\
  parse_list (join_with comma [lit "soundtrack"; lit "ost"; lit "art book"])
  = [lit "soundtrack"; lit "ost"; lit "art book"].
Proof.
  split; [reflexivity|].
  apply (parse_list_round_trip [lit "soundtrack"; lit "ost"; lit "art book"]).
  intros x [<- | [<- | [<- | []]]];
    (split; [discriminate|]); (split; [reflexivity|]);
    cbn; intuition discriminate.
Defined.

(** *** [remove_extras] *)

Lemma endswith_spec (s p : str) :
  endswith s p = true <-> exists pre, s = pre ++ p.
Proof.
  unfold endswith. rewrite startswith_spec. split.
  - intros [t Ht]. exists (rev t).
    rewrite <- (rev_involutive s), Ht, rev_app_distr, rev_involutive.
    reflexivity.
  - intros [pre ->]. exists (rev pre). apply rev_app_distr.
Qed.

Lemma p_in_default : In 112%N default_extras_patterns.
Proof.
  destruct (proj1 (existsb_exists (N.eqb 112) default_extras_patterns) eq_refl)
    as (x & Hx & E).
  apply N.eqb_eq in E. subst x. exact Hx.
Qed.

(** With the patterns left at their default string, every name that ends
    in [.zip] passes the test of the zip clean-up: the letter [p] is one
    of the patterns. *)
Lemma default_string_matches_every_zip (lower : str -> str) (found : lookup)
    (file : str) :
  keeps_zip lower ->
  (forall value, found <> Found value) ->
  endswith file (lit ".zip") = true ->
  is_extra lower (EXTRAS_PATTERNS found) file = true.
Proof.
  intros [Hzip Hp] Hnot Hend. unfold is_extra. rewrite Hend, andb_true_r.
  apply existsb_exists. exists (lit "p"). split.
  - unfold EXTRAS_PATTERNS, get_config_list.
    destruct found as [value| |]; [exfalso; exact (Hnot value eq_refl)| |];
      cbn [iterate]; change (lit "p") with ((fun c : N => [c]) 112%N);
      apply in_map, p_in_default.
  - rewrite Hp. apply endswith_spec in Hend. destruct Hend as [pre ->].
    destruct (Hzip pre) as [u ->]. apply contains_spec.
    exists (u ++ lit ".zi"), []. rewrite <- app_assoc. reflexivity.
Qed.

(** What the inner loop hands to [os.remove]. *)
Lemma files_loop_removed (lower : str -> str) (cfg : Settings)
    (folder_path : str) (files : list Entry) (path : str) :
  In path (fst (files_loop lower cfg folder_path files)) ->
  exists e, In e files /\
            In path (removals_for lower cfg folder_path (file e)).
Proof.
  induction files as [|e files IH]; cbn; [intros []|].
  destruct (getsize_answer e); [intros []|].
  destruct (files_loop lower cfg folder_path files) as [later err].
  cbn in *. intros H. apply in_app_or in H. destruct H as [H | H].
  - exists e. auto.
  - destruct (IH H) as (e' & A & B). eauto.
Qed.

Lemma files_loop_complete (lower : str -> str) (cfg : Settings)
    (folder_path : str) (files : list Entry) (e : Entry) (path : str) :
  snd (files_loop lower cfg folder_path files) = None ->
  In e files ->
  In path (removals_for lower cfg folder_path (file e)) ->
  In path (fst (files_loop lower cfg folder_path files)).
Proof.
  induction files as [|e0 files IH]; cbn; [intros _ []|].
  destruct (getsize_answer e0); [discriminate|].
  destruct (files_loop lower cfg folder_path files) as [later err].
  cbn in *. intros Herr [-> | Hin] Hp; apply in_or_app; auto.
Qed.

Lemma removals_for_cases (lower : str -> str) (cfg : Settings)
    (folder_path file path : str) :
  In path (removals_for lower cfg folder_path file) ->
  path = os_path_join folder_path file /\
  (endswith file (lit ".zip") = true \/
   (REMOVE_TEXT_FILES cfg = true /\
    endswith file (lit "gog-games.to.txt") = true)).
Proof.
  unfold removals_for, is_extra, is_site_text. intros H.
  apply in_app_or in H. destruct H as [H | H].
  - destruct (REMOVE_TEXT_FILES cfg); [|destruct H].
    destruct (endswith file (lit "gog-games.to.txt")); [|destruct H].
    destruct H as [<- | []]. auto.
  - destruct (endswith file (lit ".zip"));
      [|rewrite andb_false_r in H; destruct H].
    destruct (existsb _ _); [|destruct H].
    destruct H as [<- | []]. auto.
Qed.

(** [remove_extras] removes nothing but files of the folders directly
    under the library root whose name ends in [.zip], or, when text files
    are to be removed, in [gog-games.to.txt]. *)
Theorem remove_extras_is_selective (lower : str -> str) (cfg : Settings)
    (root : outcome (list Folder)) (path : str) :
  In path (fst (remove_extras lower cfg root)) ->
  exists folders f files e,
    root = Return folders /\ In f folders /\ isdir f = true /\
    listing f = Return files /\ In e files /\
    path = os_path_join (os_path_join (GAME_PATH cfg) (folder f)) (file e) /\
    (endswith (file e) (lit ".zip") = true \/
     (REMOVE_TEXT_FILES cfg = true /\
      endswith (file e) (lit "gog-games.to.txt") = true)).
Proof.
  destruct root as [folders|e]; [|intros []]. cbn [remove_extras].
  intros H. exists folders.
  induction folders as [|f folders IH]; cbn in H; [destruct H|].
  destruct (isdir f) eqn:D.
  2:{ destruct (IH H) as (f' & files & e & _ & A & B).
      exists f', files, e. split; [reflexivity|]. split; [right; exact A|].
      exact B. }
  destruct (listing f) as [files|e] eqn:L; [|destruct H].
  pose proof (files_loop_removed lower cfg
                (os_path_join (GAME_PATH cfg) (folder f)) files path) as Here.
  destruct (files_loop lower cfg _ files) as [here [e|]]; cbn in H, Here.
  - destruct (Here H) as (e0 & A & B).
    destruct (removals_for_cases _ _ _ _ _ B) as [C E].
    exists f, files, e0. repeat split; auto. left; reflexivity.
  - destruct (remove_extras_in lower cfg folders) as [later err].
    cbn in H, IH. apply in_app_or in H. destruct H as [H | H].
    + destruct (Here H) as (e0 & A & B).
      destruct (removals_for_cases _ _ _ _ _ B) as [C E].
      exists f, files, e0. repeat split; auto. left; reflexivity.
    + destruct (IH H) as (f' & files' & e & _ & A & B).
      exists f', files', e. split; [reflexivity|]. split; [right; exact A|].
      exact B.
Qed.

Lemma keeps_zip_ascii_lower : keeps_zip ascii_lower.
Proof.
  split; [|reflexivity]. intros s. exists (ascii_lower s).
  unfold ascii_lower. rewrite List.map_app. reflexivity.
Qed.

(** [remove_extras_is_selective] on a folder with a soundtrack archive, a
    site text file and an installer. *)
Lemma remove_extras_is_selective_witness :
  let entry n := {| file := n; getsize_answer := None |} in
  let game := {| folder := lit "Game"; isdir := true;
                 listing := Return [entry (lit "game_soundtrack.zip");
                                    entry (lit "gog-games.to.txt");
                                    entry (lit "setup_game.exe")] |} in
  let cfg := {| GAME_PATH := lit "/library"; REMOVE_TEXT_FILES := true;
                patterns := AsList [lit "soundtrack"; lit "ost"] |} in
  remove_extras ascii_lower cfg (Return [game])
  = ([lit "/library/Game/game_soundtrack.zip";
      lit "/library/Game/gog-games.to.txt"], None) /\
  exists folders f files e,
    Return [game] = Return folders /\ In f folders /\ isdir f = true /\
    listing f = Return files /\ In e files /\
    lit "/library/Game/game_soundtrack.zip"
    = os_path_join (os_path_join (GAME_PATH cfg) (folder f)) (file e) /\
    (endswith (file e) (lit ".zip") = true \/
     (REMOVE_TEXT_FILES cfg = true /\
      endswith (file e) (lit "gog-games.to.txt") = true)).
Proof.
  cbv zeta. split; [reflexivity|].
  match goal with
  | |- exists folders f files e,
         Return ?l = Return folders /\ _ /\ _ /\ _ /\ _ /\
         ?p = os_path_join (os_path_join (GAME_PATH ?c) _) _ /\ _ =>
      apply (remove_extras_is_selective ascii_lower c (Return l) p)
  end.
  left; reflexivity.
Defined.

Lemma remove_extras_in_complete (lower : str -> str) (cfg : Settings)
    (folders : list Folder) (f : Folder) (files : list Entry) (e : Entry)
    (path : str) :
  snd (remove_extras_in lower cfg folders) = None ->
  In f folders -> isdir f = true -> listing f = Return files ->
  In e files ->
  In path (removals_for lower cfg
             (os_path_join (GAME_PATH cfg) (folder f)) (file e)) ->
  In path (fst (remove_extras_in lower cfg folders)).
Proof.
  induction folders as [|f0 folders IH]; cbn; [intros _ []|].
  intros Herr Hin Hd Hl He Hp.
  destruct (isdir f0) eqn:D0.
  2:{ destruct Hin as [-> | Hin]; [congruence|]. apply IH; auto. }
  destruct (listing f0) as [files0|x] eqn:L0; [|discriminate].
  pose proof (files_loop_complete lower cfg
                (os_path_join (GAME_PATH cfg) (folder f0)) files0) as Here.
  destruct (files_loop lower cfg _ files0) as [here [x|]];
    [discriminate|].
  destruct (remove_extras_in lower cfg folders) as [later err].
  cbn in *. apply in_or_app. destruct Hin as [-> | Hin].
  - left. rewrite Hl in L0. injection L0 as <-.
    apply (Here e path eq_refl He Hp).
  - right. apply IH; auto.
Qed.

(** When the option [extras_patterns] cannot be read, the patterns are the
    characters of the default string, and a run of [remove_extras] that
    ends without exception has handed every file ending in [.zip], in
    every folder of the library root, to [os.remove]. *)
Theorem unset_patterns_remove_every_zip (lower : str -> str)
    (cfg : Settings) (found : lookup) (folders : list Folder)
    (f : Folder) (files : list Entry) (e : Entry) :
  keeps_zip lower ->
  (forall value, found <> Found value) ->
  patterns cfg = EXTRAS_PATTERNS found ->
  snd (remove_extras lower cfg (Return folders)) = None ->
  In f folders -> isdir f = true -> listing f = Return files ->
  In e files -> endswith (file e) (lit ".zip") = true ->
  In (os_path_join (os_path_join (GAME_PATH cfg) (folder f)) (file e))
     (fst (remove_extras lower cfg (Return folders))).
Proof.
  intros Hl Hf Hp Herr Hin Hd Hls He Hz. cbn [remove_extras] in *.
  apply (remove_extras_in_complete lower cfg folders f files e); auto.
  unfold removals_for. apply in_or_app. right.
  rewrite Hp, (default_string_matches_every_zip lower found _ Hl Hf Hz).
  left; reflexivity.
Qed.

(** [unset_patterns_remove_every_zip] on a library whose configuration has
    no [extras_patterns]: the game's own archive is removed. *)
Lemma unset_patterns_remove_every_zip_witness :
  let entry n := {| file := n; getsize_answer := None |} in
  let game := {| folder := lit "Game"; isdir := true;
                 listing := Return [entry (lit "game_1.0.zip");
                                    entry (lit "setup_game.exe")] |} in
  let cfg := {| GAME_PATH := lit "/library"; REMOVE_TEXT_FILES := false;
                patterns := EXTRAS_PATTERNS NotFound |} in
  remove_extras ascii_lower cfg (Return [game])
  = ([lit "/library/Game/game_1.0.zip"], None) /\
  In (os_path_join (os_path_join (GAME_PATH cfg) (folder game))
        (lit "game_1.0.zip"))
     (fst (remove_extras ascii_lower cfg (Return [game]))).
Proof.
  cbv zeta. split; [reflexivity|].
  match goal with
  | |- In (os_path_join (os_path_join (GAME_PATH ?c) (folder ?g)) ?n)
          (fst (remove_extras _ _ (Return ?l))) =>
      apply (unset_patterns_remove_every_zip ascii_lower c NotFound l g
               [{| file := n; getsize_answer := None |};
                {| file := lit "setup_game.exe"; getsize_answer := None |}]
               {| file := n; getsize_answer := None |})
  end; try reflexivity.
  - exact keeps_zip_ascii_lower.
  - discriminate.
  - left; reflexivity.
  - left; reflexivity.
Defined.

(** *** [trim_path] *)

Lemma join_split (c : N) (s : str) : join_with c (split_on c s) = s.
Proof.
  induction s as [|x s IH]; [reflexivity|]. cbn [split_on].
  destruct (N.eqb_spec x c) as [-> | Hne].
  - destruct (split_on c s) as [|item items] eqn:E.
    + exfalso. exact (split_on_nonempty c s E).
    + change (join_with c ([] :: item :: items))
        with ([] ++ c :: join_with c (item :: items)).
      rewrite IH. reflexivity.
  - destruct (split_on c s) as [|item items] eqn:E.
    + exfalso. exact (split_on_nonempty c s E).
    + destruct items as [|item' items]; cbn in IH |- *; rewrite <- IH;
        reflexivity.
Qed.

Lemma join_snoc (c : N) (items : list str) (last : str) :
  items <> [] ->
  join_with c (items ++ [last]) = join_with c items ++ c :: last.
Proof.
  induction items as [|x [|y rest] IH]; intros H; [contradiction| |].
  - reflexivity.
  - change (join_with c ((x :: y :: rest) ++ [last]))
      with (x ++ c :: join_with c ((y :: rest) ++ [last])).
    rewrite IH by discriminate.
    change (join_with c (x :: y :: rest))
      with (x ++ c :: join_with c (y :: rest)).
    rewrite <- app_assoc. reflexivity.
Qed.

Lemma no_separator_start (s : str) :
  ~ In 47%N s -> startswith s (lit "/") = false.
Proof.
  intros H. destruct (startswith s (lit "/")) eqn:E; [|reflexivity].
  apply startswith_spec in E. destruct E as [t ->].
  exfalso. apply H. left; reflexivity.
Qed.

Lemma no_separator_end (s : str) :
  ~ In 47%N s -> endswith s (lit "/") = false.
Proof.
  intros H. unfold endswith. apply no_separator_start.
  rewrite <- in_rev. exact H.
Qed.

(** The number of separators in a string. *)
Lemma separators_app (a b : str) :
  MoreSpec.count (N.eqb 47) (a ++ b)
  = MoreSpec.count (N.eqb 47) a + MoreSpec.count (N.eqb 47) b.
Proof.
  unfold MoreSpec.count. rewrite List.filter_app, length_app. reflexivity.
Qed.

Lemma no_separator_count (s : str) :
  ~ In 47%N s -> MoreSpec.count (N.eqb 47) s = 0.
Proof.
  unfold MoreSpec.count. induction s as [|x s IH]; [reflexivity|].
  intros H. cbn [List.filter]. destruct (N.eqb_spec 47%N x) as [<- | Hne].
  - exfalso. apply H. left; reflexivity.
  - apply IH. intros H'. apply H. right; exact H'.
Qed.

(** [trim_path] returns the end of the path, with at most one separator
    in it. *)
Theorem trim_path_is_a_short_suffix (path : str) :
  (exists start, path = start ++ trim_path path) /\
  MoreSpec.count (N.eqb 47) (trim_path path) <= 1.
Proof.
  unfold trim_path.
  pose proof (join_split 47%N path) as J.
  pose proof (split_on_pieces 47%N path) as P.
  rewrite <- (rev_involutive (split_on 47%N path)) in J, P.
  destruct (rev (split_on 47%N path)) as [|last [|parent more]] eqn:E.
  - cbn in J. subst path. split; [exists []; reflexivity | cbn; lia].
  - cbn in J. subst path. split; [exists []; reflexivity|].
    rewrite no_separator_count; [lia|]. apply P. left; reflexivity.
  - assert (~ In 47%N last) as Hl.
    { apply P. cbn. rewrite !in_app_iff. cbn. auto. }
    assert (~ In 47%N parent) as Hp.
    { apply P. cbn. rewrite !in_app_iff. cbn. auto. }
    cbn [rev] in J. rewrite join_snoc in J
      by (intros H; apply app_eq_nil in H; destruct H; discriminate).
    unfold os_path_join.
    rewrite (no_separator_start _ Hl), (no_separator_end _ Hp), orb_false_r.
    assert (exists before, join_with 47%N (rev more ++ [parent])
                           = before ++ parent) as [before B].
    { destruct (rev more) as [|x xs] eqn:R.
      - exists []. reflexivity.
      - rewrite join_snoc by discriminate.
        exists (join_with 47%N (x :: xs) ++ [47%N]).
        rewrite <- app_assoc. reflexivity. }
    rewrite B in J. destruct parent as [|c parent]; cbn [is_empty].
    + split.
      * exists (before ++ [47%N]). rewrite <- J, app_nil_r, <- app_assoc.
        reflexivity.
      * cbn [app]. rewrite no_separator_count by exact Hl. lia.
    + split.
      * exists before. rewrite <- J, <- app_assoc. reflexivity.
      * rewrite separators_app, (no_separator_count _ Hp), separators_app,
          (no_separator_count _ Hl).
        change (MoreSpec.count (N.eqb 47) (lit "/")) with 1. lia.
Qed.

End CleanupFacts.
